(** * Conflict-marker resolution scripts: a shallow embedding

    The two scripts [resolve_conflicts.py] and [resolve_remaining.py] read a
    text file, run one or two [re.sub] substitutions over the whole text and
    write the result back.  The text is a Python [str], i.e. a sequence of
    code points, as [f.read()] returns it and [f.write] takes it; the
    regular expressions are embedded as backtracking matchers written in
    continuation-passing style, one combinator per regex construct that the
    patterns use.  Files live in a world that also records what was printed
    and what was written; [open] may raise, and the scripts run in a state
    and exception monad over that world. *)

From Stdlib Require Import String Ascii NArith Arith Lia Bool List.
Import ListNotations.
Local Open Scope list_scope.

(** ** Text *)

(** A code point of a Python [str]. *)
Definition char := N.

Definition text := list char.

Definition char_eqb (a b : char) : bool := N.eqb a b.

(** A literal of the source, as text. *)
Definition lit (s : string) : text :=
  map N_of_ascii (list_ascii_of_string s).

Definition nl : char := 10%N.

(** ** Regex combinators (the [sre] backtracking semantics) *)

Module Regex.

(** What a successful match at the head of the subject gives back to
    [re.sub]: the replacement text and the unconsumed rest. *)
Definition result := (text * text)%type.

(** Matching a literal at the head of the subject. *)
Fixpoint strip_prefix (p s : text) : option text :=
  match p with
  | [] => Some s
  | a :: p' =>
      match s with
      | [] => None
      | b :: s' => if char_eqb a b then strip_prefix p' s' else None
      end
  end.

(** [(.*?)] under [re.DOTALL]: the group is tried empty first and grows by
    one character, whatever it is, each time the continuation fails.  [acc]
    is the captured text so far, reversed. *)
Fixpoint lazy_any {A} (acc : text) (s : text)
         (k : text -> text -> option A) : option A :=
  match k (rev acc) s with
  | Some r => Some r
  | None =>
      match s with
      | [] => None
      | c :: s' => lazy_any (c :: acc) s' k
      end
  end.

(** [\s] on a [str] pattern: the code points for which
    [Py_UNICODE_ISSPACE] holds. *)
Definition is_space (c : char) : bool :=
  ((9 <=? c) && (c <=? 13) || (28 <=? c) && (c <=? 32)
   || (c =? 133) || (c =? 160) || (c =? 5760)
   || (8192 <=? c) && (c <=? 8202)
   || (c =? 8232) || (c =? 8233) || (c =? 8239) || (c =? 8287)
   || (c =? 12288))%N.

(** [p*], greedy: takes a character while it can and gives it back when the
    continuation fails. *)
Fixpoint greedy_star {A} (p : char -> bool) (s : text)
         (k : text -> option A) : option A :=
  match s with
  | c :: s' =>
      if p c then
        match greedy_star p s' k with
        | Some r => Some r
        | None => k s
        end
      else k s
  | [] => k s
  end.

(** [re.sub(pattern, repl, s)] for a pattern that never matches the empty
    string: scan from the left; where the pattern matches, emit the
    replacement and go on after the match; elsewhere copy one character.
    Every step takes at least one character off the subject, so [sub] gives
    the scan as many steps as the subject has characters ([sub_unfold] below
    shows that this is enough). *)
Fixpoint sub_from (m : text -> option result) (fuel : nat) (s : text) : text :=
  match fuel with
  | O => s
  | S fuel' =>
      match m s with
      | Some (r, rest) => r ++ sub_from m fuel' rest
      | None =>
          match s with
          | [] => []
          | c :: s' => c :: sub_from m fuel' s'
          end
      end
  end.

Definition sub (m : text -> option result) (s : text) : text :=
  sub_from m (length s) s.

End Regex.

(** ** The patterns of the scripts *)

Definition START : text := lit "<<<<<<< HEAD".
Definition LABEL : text := lit "test/test-failure-analysis".

(** The pieces of the patterns between the groups. *)
Definition start_nl : text := START ++ [nl].
Definition sep_line : text := nl :: lit "=======" ++ [nl].
Definition end_mark : text := nl :: lit ">>>>>>> " ++ LABEL.
Definition vi_decl : text := lit "const vi: typeof import('vitest').vi".
Definition vi_tail : text := vi_decl ++ nl :: lit "=======" ++ nl :: lit ">>>>>>> " ++ LABEL.

(** [vi_conflict_pattern], replaced by the empty string. *)
Definition vi_conflict_pattern (s : text) : option Regex.result :=
  match Regex.strip_prefix start_nl s with
  | None => None
  | Some s1 =>
      Regex.greedy_star Regex.is_space s1 (fun s2 =>
        match Regex.strip_prefix vi_tail s2 with
        | None => None
        | Some rest => Some ([], rest)
        end)
  end.

(** [general_conflict_pattern] (and [pattern] of the second script), replaced
    by its second group ([keep_theirs], [lambda m: m.group(2)]). *)
Definition general_conflict_pattern (s : text) : option Regex.result :=
  match Regex.strip_prefix start_nl s with
  | None => None
  | Some s1 =>
      Regex.lazy_any [] s1 (fun _ours s2 =>
        match Regex.strip_prefix sep_line s2 with
        | None => None
        | Some s3 =>
            Regex.lazy_any [] s3 (fun theirs s4 =>
              match Regex.strip_prefix end_mark s4 with
              | None => None
              | Some rest => Some (theirs, rest)
              end)
        end)
  end.

(** The two passes on the content. *)
Definition resolveSpecialCase (content : text) : text :=
  Regex.sub vi_conflict_pattern content.

Definition resolveGeneric (content : text) : text :=
  Regex.sub general_conflict_pattern content.

(** The body of [resolve_conflicts] between the read and the write. *)
Definition transform (content : text) : text :=
  resolveGeneric (resolveSpecialCase content).

(** ** Occurrences of a literal in a text *)

(** The first occurrence of [p] in [s]: the text before it and the text
    after it ([s.partition(p)] without the middle). *)
Fixpoint split_at_first (p s : text) : option (text * text) :=
  match Regex.strip_prefix p s with
  | Some r => Some ([], r)
  | None =>
      match s with
      | [] => None
      | c :: s' =>
          match split_at_first p s' with
          | Some (b, a) => Some (c :: b, a)
          | None => None
          end
      end
  end.

(** [p in s]. *)
Definition occurs (p s : text) : bool :=
  match split_at_first p s with
  | Some _ => true
  | None => false
  end.

(** What [\s*] takes when the next item of the pattern cannot start with a
    space. *)
Fixpoint drop_spaces (s : text) : text :=
  match s with
  | c :: s' => if Regex.is_space c then drop_spaces s' else s
  | [] => []
  end.

(** ** Conflict regions, as the marker grammar writes them *)

Definition SEP : text := lit "=======".
Definition END_PREFIX : text := lit ">>>>>>> ".

(** A region made of the start line, the lines of [ours], the separator
    line, the lines of [theirs] and the end line with its label.  [ours] and
    [theirs] are whole lines: empty, or ending in a newline. *)
Definition region (ours theirs label : text) : text :=
  START ++ nl :: ours ++ SEP ++ nl :: theirs ++ END_PREFIX ++ label ++ [nl].

(** No occurrence of the start text begins inside [pre], whatever follows
    [pre]. *)
Definition safe_before (pre : text) : Prop :=
  forall x a b, pre ++ x = a ++ start_nl ++ b -> length pre <= length a.

(** No occurrence of the end text ends inside [post], whatever precedes
    [post]. *)
Definition safe_after (post : text) : Prop :=
  forall x a b, x ++ post = a ++ end_mark ++ b -> length post <= length b.

(** Decidable conditions that give [safe_before] and [safe_after]: the text
    holds no occurrence, and its last (first) character cannot continue into
    (out of) one. *)
Definition ends_clear (pre : text) : bool :=
  match rev pre with
  | [] => true
  | c :: _ => negb (existsb (char_eqb c) START)
  end.

Definition starts_clear (post : text) : bool :=
  match post with
  | [] => true
  | c :: _ => negb (existsb (char_eqb c) (tl end_mark))
  end.

(** The lines of a text ([s.split('\n')]). *)
Fixpoint split_lines (cur : text) (s : text) : list text :=
  match s with
  | [] => [rev cur]
  | c :: s' =>
      if char_eqb c nl then rev cur :: split_lines [] s'
      else split_lines (c :: cur) s'
  end.

Fixpoint text_eqb (a b : text) : bool :=
  match a, b with
  | [], [] => true
  | x :: a', y :: b' => char_eqb x y && text_eqb a' b'
  | _, _ => false
  end.

(** Some line of [s] is exactly the start marker. *)
Definition has_start_line (s : text) : bool :=
  existsb (text_eqb START) (split_lines [] s).

(** ** Files, exceptions and the output of the scripts *)

Definition path := string.
Bind Scope string_scope with path.

Inductive node :=
| Directory
| Regular (readable writable : bool) (data : text).

(** The exceptions [open] raises. *)
Inductive exn :=
| FileNotFoundError (p : path)
| PermissionError (p : path)
| IsADirectoryError (p : path).

Local Open Scope string_scope.

(** [str(e)]. *)
Definition str (e : exn) : string :=
  match e with
  | FileNotFoundError p => "[Errno 2] No such file or directory: '" ++ p ++ "'"
  | PermissionError p => "[Errno 13] Permission denied: '" ++ p ++ "'"
  | IsADirectoryError p => "[Errno 21] Is a directory: '" ++ p ++ "'"
  end.

(** One printed line per processed file. *)
Inductive FileOutcome :=
| Resolved (p : path)
| NoConflict (p : path)
| Error (p : path) (cause : string).

Definition line_of (o : FileOutcome) : string :=
  match o with
  | Resolved p => "Resolved conflicts in: " ++ p
  | NoConflict p => "No conflicts found in: " ++ p
  | Error p cause => "Error processing " ++ p ++ ": " ++ cause
  end.

Definition outcome_path (o : FileOutcome) : path :=
  match o with
  | Resolved p | NoConflict p | Error p _ => p
  end.

Local Close Scope string_scope.

Record world := World {
  fs : path -> option node;
  stdout : list FileOutcome;       (* lines printed so far, oldest first *)
  writes : list (path * text)      (* completed writes, oldest first *)
}.

(** State and exceptions. *)
Definition M (A : Type) : Type := world -> (exn + A) * world.

Definition ret {A} (a : A) : M A := fun w => (inr a, w).

Definition bind {A B} (c : M A) (k : A -> M B) : M B :=
  fun w =>
    match c w with
    | (inl e, w') => (inl e, w')
    | (inr a, w') => k a w'
    end.

Definition raise {A} (e : exn) : M A := fun w => (inl e, w).

(** [try: c except Exception as e: h e]. *)
Definition try_except {A} (c : M A) (h : exn -> M A) : M A :=
  fun w =>
    match c w with
    | (inl e, w') => h e w'
    | r => r
    end.

Notation "x <- c ;; k" := (bind c (fun x => k))
  (at level 61, c at next level, right associativity).
Notation "c ;;; k" := (bind c (fun _ => k))
  (at level 61, right associativity).

(** [for x in l: body x]. *)
Fixpoint for_each {X} (body : X -> M unit) (l : list X) : M unit :=
  match l with
  | [] => ret tt
  | x :: rest => body x ;;; for_each body rest
  end.

Definition update (f : path -> option node) (p : path) (n : node) : path -> option node :=
  fun q => if String.eqb q p then Some n else f q.

Definition exists_in (w : world) (p : path) : bool :=
  match fs w p with Some _ => true | None => false end.

(** [os.path.exists]. *)
Definition path_exists (p : path) : M bool :=
  fun w => (inr (exists_in w p), w).

(** [with open(p, 'r') as f: f.read()]. *)
Definition read_file (p : path) : M text :=
  fun w =>
    match fs w p with
    | None => (inl (FileNotFoundError p), w)
    | Some Directory => (inl (IsADirectoryError p), w)
    | Some (Regular r _ data) =>
        if r then (inr data, w) else (inl (PermissionError p), w)
    end.

(** [with open(p, 'w') as f: f.write(content)]. *)
Definition write_file (p : path) (content : text) : M unit :=
  fun w =>
    match fs w p with
    | Some Directory => (inl (IsADirectoryError p), w)
    | Some (Regular r false _) => (inl (PermissionError p), w)
    | Some (Regular r true _) =>
        (inr tt, World (update (fs w) p (Regular r true content)) (stdout w)
                       (writes w ++ [(p, content)]))
    | None =>
        (inr tt, World (update (fs w) p (Regular true true content)) (stdout w)
                       (writes w ++ [(p, content)]))
    end.

Definition print (o : FileOutcome) : M unit :=
  fun w => (inr tt, World (fs w) (stdout w ++ [o]) (writes w)).

(** *** resolve_conflicts.py *)

Definition resolve_conflicts (file_path : path) : M unit :=
  content <- read_file file_path ;;
  let content := Regex.sub vi_conflict_pattern content in
  let content := Regex.sub general_conflict_pattern content in
  write_file file_path content ;;;
  print (Resolved file_path).

(** The body of the loop over [conflict_files], and the loop. *)
Definition conflict_files_body (file_path : path) : M unit :=
  ex <- path_exists file_path ;;
  if ex then
    try_except (resolve_conflicts file_path)
               (fun e => print (Error file_path (str e)))
  else ret tt.

Definition process_conflict_files (conflict_files : list path) : M unit :=
  for_each conflict_files_body conflict_files.

(** *** resolve_remaining.py *)

Definition resolve_generic_conflicts (file_path : path) (preference : string) : M unit :=
  try_except
    (content <- read_file file_path ;;
     if negb (occurs START content) then
       print (NoConflict file_path)
     else
       let content :=
         if String.eqb preference "test"
         then Regex.sub general_conflict_pattern content
         else content in
       write_file file_path content ;;;
       print (Resolved file_path))
    (fun e => print (Error file_path (str e))).

(** The body of the loop over [additional_files.items()], and the loop, in
    insertion order. *)
Definition additional_files_body (item : path * string) : M unit :=
  let (file_path, preference) := item in
  ex <- path_exists file_path ;;
  if ex then resolve_generic_conflicts file_path preference else ret tt.

Definition process_additional_files (additional_files : list (path * string)) : M unit :=
  for_each additional_files_body additional_files.

(** *** The lists and the two programs *)

Local Open Scope string_scope.

Definition conflict_files : list path := [
  "src/main/__tests__/auto-updater-differential.test.ts";
  "src/main/__tests__/auto-updater-integration.test.ts";
  "src/main/__tests__/auto-updater-security.test.ts";
  "src/main/__tests__/auto-updater.test.ts";
  "src/main/__tests__/baseline.test.ts";
  "src/main/__tests__/cross-process-communication.test.ts";
  "src/main/__tests__/ipc-security.test.ts";
  "src/main/__tests__/lifecycle.test.ts";
  "src/main/__tests__/memory-leak-detection.test.ts";
  "src/main/__tests__/memory-leaks.test.ts";
  "src/main/__tests__/mocked-apis.test.ts";
  "src/main/__tests__/mocked-electron-apis.test.ts";
  "src/preload/__tests__/preload-security.test.ts";
  "src/renderer/src/components/error/__tests__/ErrorBoundary.test.tsx";
  "src/renderer/src/components/task/__tests__/TaskCard.test.tsx"
].

Definition additional_files : list (path * string) := [
  ("src/renderer/src/hooks/useErrorBoundary.ts", "test");
  ("src/renderer/src/store/__tests__/errorHandling.test.ts", "test");
  ("src/renderer/src/store/__tests__/useTaskStore.test.ts", "test");
  ("startup.sh", "test");
  ("test-results/results.json", "test");
  ("tests/setup/preload.setup.ts", "test");
  ("wt_tasks/progress.md", "test")
].

Local Close Scope string_scope.

Definition run_resolve_conflicts : M unit := process_conflict_files conflict_files.
Definition run_resolve_remaining : M unit := process_additional_files additional_files.

(** ** Sample inputs *)

Definition LF : string := String (ascii_of_nat 10) EmptyString.

Definition ex_generic : text :=
  lit ("<<<<<<< HEAD" ++ LF ++ "const x = 1" ++ LF ++ "=======" ++ LF
       ++ "const x = 2" ++ LF ++ ">>>>>>> test/test-failure-analysis" ++ LF).

Definition ex_vi : text :=
  lit ("<<<<<<< HEAD" ++ LF ++ "    const vi: typeof import('vitest').vi" ++ LF
       ++ "=======" ++ LF ++ ">>>>>>> test/test-failure-analysis" ++ LF).

Definition line (s : string) : text := lit s ++ [nl].

(** A region of another merge followed by a region of the expected one. *)
Definition ex_other : text :=
  region (line "A") (line "B") (lit "some/other-branch").

Definition ex_other_then_expected : text :=
  ex_other ++ region (line "C") (line "D") LABEL.

(** A start text in the middle of a line, then a line, then a region. *)
Definition ex_note : text := lit "note: <<<<<<< HEAD" ++ nl :: line "keep".

Definition ex_note_then_region : text :=
  ex_note ++ region (line "A") (line "B") LABEL.

(** A region that starts after an [x] on the same line. *)
Definition ex_inline : text := lit "x" ++ region (line "A") (line "B") LABEL.

(** A region whose [theirs] is a start line, followed by the rest of
    another region. *)
Definition ex_regrow : text :=
  region (line "X") (line "<<<<<<< HEAD") LABEL
  ++ line "A" ++ line "=======" ++ line "B"
  ++ line ">>>>>>> test/test-failure-analysis".

(** Regions with an empty segment. *)
Definition ex_empty_ours : text := region [] (line "A") LABEL.
Definition ex_empty_theirs : text := region (line "A") [] LABEL.
Definition ex_empty_ours_then_region : text :=
  ex_empty_ours ++ region (line "B") (line "C") LABEL.

(** A working tree: a file without markers, an unreadable file, a
    read-only file and a file with one conflict, at paths of the two
    lists. *)
Definition fs_of (l : list (path * node)) : path -> option node :=
  fun q =>
    match find (fun e => String.eqb q (fst e)) l with
    | Some e => Some (snd e)
    | None => None
    end.

Definition baseline_ts : path := "src/main/__tests__/baseline.test.ts".
Definition lifecycle_ts : path := "src/main/__tests__/lifecycle.test.ts".
Definition startup_sh : path := "startup.sh".
Definition progress_md : path := "wt_tasks/progress.md".

Definition w_sample : world :=
  World (fs_of [(baseline_ts, Regular true true (line "hello"));
                (lifecycle_ts, Regular false true ex_generic);
                (startup_sh, Regular true false ex_generic);
                (progress_md, Regular true true ex_generic)])
        [] [].

(** The world after one more printed line. *)
Definition printed (w : world) (o : FileOutcome) : world :=
  World (fs w) (stdout w ++ [o]) (writes w).

(** What one turn of a loop does: it ends normally, keeps every path that
    exists, and prints one line about its path if the path exists and none
    otherwise. *)
Definition turn_ok (p : path) (w : world) (res : (exn + unit) * world) : Prop :=
  fst res = inr tt
  /\ (forall q, exists_in (snd res) q = exists_in w q)
  /\ exists outs,
       stdout (snd res) = stdout w ++ outs
       /\ map outcome_path outs = if exists_in w p then [p] else [].

(** ** Notions used to state what the passes do to a whole text *)

(** [a] is [b] with some characters deleted. *)
Inductive subseq : text -> text -> Prop :=
| subseq_nil : subseq [] []
| subseq_skip (c : char) (a b : text) : subseq a b -> subseq a (c :: b)
| subseq_keep (c : char) (a b : text) : subseq a b -> subseq (c :: a) (c :: b).

(** A stretch of text followed by one conflict region of the expected
    merge; [p_ours] and [p_theirs] are the two segments without their final
    newline (the two groups of the pattern). *)
Record piece := Piece { p_gap : text; p_ours : text; p_theirs : text }.

Definition conflicted_piece (p : piece) : text :=
  p_gap p ++ region (p_ours p ++ [nl]) (p_theirs p ++ [nl]) LABEL.

Definition resolved_piece (p : piece) : text :=
  p_gap p ++ p_theirs p ++ [nl].

(** No start text begins in the gap, no separator text ends inside
    [ours] or its newline, no end text ends inside [theirs] or its
    newline. *)
Definition clean_piece (p : piece) : bool :=
  negb (occurs start_nl (p_gap p)) && ends_clear (p_gap p)
  && negb (occurs sep_line (p_ours p ++ removelast sep_line))
  && negb (occurs end_mark (p_theirs p ++ removelast end_mark)).



(** ** Deterministic scans, for comparison with the matchers *)

(** The scan that [general_conflict_pattern] amounts to: the start text, the
    first separator after it, the first end text after that. *)
Definition general_scan (s : text) : option Regex.result :=
  match Regex.strip_prefix start_nl s with
  | None => None
  | Some s1 =>
      match split_at_first sep_line s1 with
      | None => None
      | Some (_, s3) => split_at_first end_mark s3
      end
  end.

Definition vi_scan (s : text) : option Regex.result :=
  match Regex.strip_prefix start_nl s with
  | None => None
  | Some s1 =>
      match Regex.strip_prefix vi_tail (drop_spaces s1) with
      | None => None
      | Some rest => Some ([], rest)
      end
  end.

(** ** What the frame lemmas ask of a pattern *)

(** Every match starts with the start text and ends with the end text, and
    text after the match plays no part in it. *)
Record bracketed (m : text -> option Regex.result) : Prop := {
  br_start : forall s r rest, m s = Some (r, rest) -> exists x, s = start_nl ++ x;
  br_end : forall s r rest, m s = Some (r, rest) -> exists u, s = u ++ end_mark ++ rest;
  br_ext : forall x t r rest, m x = Some (r, rest) -> m (x ++ t) = Some (r, rest ++ t);
  br_restrict : forall x t r rest',
      m (x ++ t) = Some (r, rest') -> length t <= length rest' ->
      exists rest, rest' = rest ++ t /\ m x = Some (r, rest)
}.

(** * Facts about literals and occurrences *)

Section TextFacts.

Lemma char_eqb_eq (a b : char) : char_eqb a b = true <-> a = b.
Proof. unfold char_eqb. apply N.eqb_eq. Qed.

Lemma strip_prefix_app (p r : text) : Regex.strip_prefix p (p ++ r) = Some r.
Proof.
  induction p as [|a p IH]; simpl; [reflexivity|].
  unfold char_eqb. now rewrite N.eqb_refl.
Qed.

Lemma strip_prefix_sound (p s r : text) :
  Regex.strip_prefix p s = Some r -> s = p ++ r.
Proof.
  revert s. induction p as [|a p IH]; intros s H; simpl in *.
  - now inversion H.
  - destruct s as [|b s]; [discriminate|].
    destruct (char_eqb a b) eqn:E; [|discriminate].
    apply char_eqb_eq in E. subst b. f_equal. now apply IH.
Qed.

Lemma strip_prefix_none (p s : text) :
  Regex.strip_prefix p s = None -> forall r, s <> p ++ r.
Proof.
  intros H r ->. rewrite strip_prefix_app in H. discriminate.
Qed.

Lemma app_tail_split (x t u a' : text) :
  x ++ t = u ++ a' -> length t <= length a' ->
  exists a, a' = a ++ t /\ x = u ++ a.
Proof.
  revert x. induction u as [|c u IH]; intros x H L; simpl in *.
  - exists x. now split.
  - destruct x as [|d x]; simpl in *.
    + subst t. simpl in L. rewrite length_app in L. lia.
    + inversion H; subst d. destruct (IH x H2 L) as (a & -> & ->).
      exists a. now split.
Qed.

Lemma split_at_first_sound (p s b a : text) :
  split_at_first p s = Some (b, a) -> s = b ++ p ++ a.
Proof.
  revert b a. induction s as [|c s IH]; intros b a H; simpl in H.
  - destruct (Regex.strip_prefix p []) eqn:E; [|discriminate].
    inversion H; subst. now apply strip_prefix_sound in E.
  - destruct (Regex.strip_prefix p (c :: s)) eqn:E.
    + inversion H; subst. now apply strip_prefix_sound in E.
    + destruct (split_at_first p s) as [[b' a']|] eqn:F; [|discriminate].
      inversion H; subst. simpl. f_equal. now apply IH.
Qed.

(** The occurrence found is the leftmost one. *)
Lemma split_at_first_leftmost (p s b a : text) :
  split_at_first p s = Some (b, a) ->
  forall b' a', s = b' ++ p ++ a' -> length b <= length b'.
Proof.
  revert b a. induction s as [|c s IH]; intros b a H b' a' E; simpl in H.
  - destruct (Regex.strip_prefix p []); [|discriminate].
    inversion H; subst. simpl. lia.
  - destruct (Regex.strip_prefix p (c :: s)) eqn:P.
    + inversion H; subst. simpl. lia.
    + destruct (split_at_first p s) as [[b0 a0]|] eqn:F; [|discriminate].
      inversion H; subst. destruct b' as [|d b']; simpl in E.
      * rewrite E, strip_prefix_app in P. discriminate.
      * inversion E; subst. simpl. apply le_n_S. eapply IH; eauto.
Qed.

Lemma split_at_first_head (p s r : text) :
  Regex.strip_prefix p s = Some r -> split_at_first p s = Some ([], r).
Proof. intros H. destruct s; simpl; now rewrite H. Qed.

Lemma split_at_first_complete (p s a b : text) :
  s = a ++ p ++ b -> exists b0 a0, split_at_first p s = Some (b0, a0).
Proof.
  revert s. induction a as [|c a IH]; intros s ->; simpl.
  - rewrite (split_at_first_head _ _ _ (strip_prefix_app p b)). eauto.
  - destruct (Regex.strip_prefix p (c :: a ++ p ++ b)); [eauto|].
    destruct (IH _ eq_refl) as (b0 & a0 & ->). eauto.
Qed.

Lemma occurs_true (p s : text) :
  occurs p s = true <-> exists a b, s = a ++ p ++ b.
Proof.
  unfold occurs. split.
  - destruct (split_at_first p s) as [[b a]|] eqn:E; [|discriminate].
    intros _. exists b, a. now apply split_at_first_sound.
  - intros (a & b & H). destruct (split_at_first_complete _ _ _ _ H) as (? & ? & ->).
    reflexivity.
Qed.

Lemma occurs_false (p s : text) :
  occurs p s = false <-> forall a b, s <> a ++ p ++ b.
Proof.
  split.
  - intros H a b E. assert (occurs p s = true) by (apply occurs_true; eauto). congruence.
  - intros H. destruct (occurs p s) eqn:E; [|reflexivity].
    apply occurs_true in E. destruct E as (a & b & E). now elim (H a b).
Qed.

Lemma split_at_first_none (p s : text) :
  split_at_first p s = None <-> occurs p s = false.
Proof.
  unfold occurs. destruct (split_at_first p s) as [[? ?]|]; split; congruence.
Qed.

(** Text added after the subject does not move the first occurrence. *)
Lemma split_at_first_app (p x t b a : text) :
  split_at_first p x = Some (b, a) ->
  split_at_first p (x ++ t) = Some (b, a ++ t).
Proof.
  revert b a. induction x as [|c x IH]; intros b a H; simpl in H.
  - destruct (Regex.strip_prefix p []) eqn:E; [|discriminate].
    inversion H; subst. apply strip_prefix_sound in E.
    symmetry in E. apply app_eq_nil in E. destruct E as [-> ->]. simpl.
    destruct t; reflexivity.
  - simpl. destruct (Regex.strip_prefix p (c :: x)) eqn:E.
    + inversion H; subst. apply strip_prefix_sound in E.
      change (c :: x ++ t) with ((c :: x) ++ t). rewrite E, <- app_assoc.
      now rewrite strip_prefix_app.
    + destruct (split_at_first p x) as [[b0 a0]|] eqn:F; [|discriminate].
      inversion H; subst. rewrite (IH _ _ eq_refl).
      destruct (Regex.strip_prefix p (c :: x ++ t)) eqn:G; [|reflexivity].
      exfalso. apply strip_prefix_sound in G.
      apply split_at_first_sound in F. subst x.
      (* an occurrence at the head would end inside [c :: x] *)
      change (c :: (b0 ++ p ++ a) ++ t) with ((c :: b0 ++ p ++ a) ++ t) in G.
      assert (L : length t <= length t0).
      { apply (f_equal (@length _)) in G. simpl in G.
        repeat rewrite length_app in G. simpl in G. lia. }
      destruct (app_tail_split _ _ _ _ G L) as (a1 & _ & E1).
      rewrite E1, strip_prefix_app in E. discriminate.
Qed.

(** A first occurrence that ends before the added text was there before. *)
Lemma split_at_first_restrict (p x t b a' : text) :
  split_at_first p (x ++ t) = Some (b, a') -> length t <= length a' ->
  exists a, a' = a ++ t /\ split_at_first p x = Some (b, a).
Proof.
  intros H L. pose proof (split_at_first_sound _ _ _ _ H) as E.
  rewrite app_assoc in E.
  destruct (app_tail_split _ _ _ _ E L) as (a & -> & Ex).
  exists a. split; [reflexivity|].
  rewrite <- app_assoc in Ex.
  destruct (split_at_first_complete _ _ _ _ Ex) as (b0 & a0 & F).
  pose proof (split_at_first_app _ _ t _ _ F) as F'.
  rewrite H in F'. inversion F'; subst.
  apply app_inv_tail in H2. now subst.
Qed.

End TextFacts.

(** * The backtracking matchers against deterministic scans *)

Section Matchers.

Context {A : Type}.

(** [(.*?)lit...]: when the rest of the pattern cannot succeed any further to
    the right once it failed, backtracking over the group finds the first
    occurrence of the literal and nothing else. *)
Lemma lazy_any_literal (F : text -> text -> option A) (p : text) :
  (forall g x, F g x = None -> forall g' y x', x = y ++ x' -> F g' x' = None) ->
  forall s acc,
    Regex.lazy_any acc s
      (fun g r => match Regex.strip_prefix p r with
                  | None => None
                  | Some x => F g x
                  end)
    = match split_at_first p s with
      | None => None
      | Some (b, a) => F (rev acc ++ b) a
      end.
Proof.
  intros mono. induction s as [|c s IH]; intros acc.
  - simpl. destruct (Regex.strip_prefix p []) as [x|]; [|reflexivity].
    rewrite app_nil_r. now destruct (F (rev acc) x).
  - cbn [Regex.lazy_any split_at_first].
    destruct (Regex.strip_prefix p (c :: s)) as [x|] eqn:P.
    + rewrite app_nil_r. destruct (F (rev acc) x) eqn:Fx; [reflexivity|].
      rewrite IH. destruct (split_at_first p s) as [[b a]|] eqn:S; [|reflexivity].
      apply strip_prefix_sound in P. apply split_at_first_sound in S.
      assert (E : (c :: b ++ p) ++ a = p ++ x).
      { rewrite <- P, S. simpl. now rewrite <- app_assoc. }
      assert (L : length a <= length x).
      { apply (f_equal (@length _)) in E. simpl in E.
        repeat rewrite length_app in E. lia. }
      destruct (app_tail_split _ _ _ _ E L) as (y & -> & _).
      eapply mono; eauto.
    + rewrite IH. destruct (split_at_first p s) as [[b a]|]; [|reflexivity].
      simpl. now rewrite <- app_assoc.
Qed.

(** [\s*] before an item that no space can start: no backtracking helps. *)
Lemma greedy_star_spaces (k : text -> option A) :
  (forall c t, Regex.is_space c = true -> k (c :: t) = None) ->
  forall s, Regex.greedy_star Regex.is_space s k = k (drop_spaces s).
Proof.
  intros Hk. induction s as [|c s IH]; simpl; [reflexivity|].
  destruct (Regex.is_space c) eqn:E; [|reflexivity].
  rewrite IH. destruct (k (drop_spaces s)); [reflexivity|]. now apply Hk.
Qed.

End Matchers.

Lemma occurs_suffix (p y x : text) :
  occurs p (y ++ x) = false -> occurs p x = false.
Proof.
  rewrite !occurs_false. intros H a b ->. apply (H (y ++ a) b).
  now rewrite <- app_assoc.
Qed.

Lemma general_conflict_pattern_scan (s : text) :
  general_conflict_pattern s = general_scan s.
Proof.
  unfold general_conflict_pattern, general_scan.
  destruct (Regex.strip_prefix start_nl s) as [s1|]; [|reflexivity].
  rewrite (lazy_any_literal
             (fun _ s3 => Regex.lazy_any [] s3 (fun theirs s4 =>
                match Regex.strip_prefix end_mark s4 with
                | None => None
                | Some rest => Some (theirs, rest)
                end))).
  - destruct (split_at_first sep_line s1) as [[b s3]|]; [|reflexivity].
    rewrite (lazy_any_literal (fun theirs rest => Some (theirs, rest))).
    + now destruct (split_at_first end_mark s3) as [[? ?]|].
    + discriminate.
  - intros _ x H _ y x' ->.
    rewrite (lazy_any_literal (fun theirs rest => Some (theirs, rest))) in *;
      try discriminate.
    destruct (split_at_first end_mark (y ++ x')) as [[? ?]|] eqn:E; [discriminate|].
    apply split_at_first_none in E. apply occurs_suffix in E.
    apply split_at_first_none in E. now rewrite E.
Qed.

Lemma vi_tail_head : exists t, vi_tail = 99%N :: t.
Proof. eexists. cbv. reflexivity. Qed.

Lemma vi_conflict_pattern_scan (s : text) :
  vi_conflict_pattern s = vi_scan s.
Proof.
  unfold vi_conflict_pattern, vi_scan.
  destruct (Regex.strip_prefix start_nl s) as [s1|]; [|reflexivity].
  apply greedy_star_spaces. intros c t Hc.
  destruct vi_tail_head as (tl & ->). cbn [Regex.strip_prefix].
  destruct (char_eqb 99%N c) eqn:E; [|reflexivity].
  apply char_eqb_eq in E. subst c. discriminate.
Qed.

(** * [re.sub] *)

Section SubFacts.

Variable m : text -> option Regex.result.
Hypothesis Hm : bracketed m.

Lemma bracketed_progress (s r rest : text) :
  m s = Some (r, rest) -> length rest < length s.
Proof.
  intros H. destruct (br_end m Hm _ _ _ H) as (u & ->).
  rewrite !length_app. unfold end_mark. simpl. lia.
Qed.

(** The fuel [sub] starts with is enough. *)
Lemma sub_from_fuel : forall n k s,
  length s <= n -> length s <= k -> Regex.sub_from m n s = Regex.sub_from m k s.
Proof.
  induction n as [|n IH]; intros k s Ln Lk.
  - destruct s; [|simpl in Ln; lia]. destruct k; simpl; [reflexivity|].
    destruct (m []) as [[r rest]|] eqn:E; [|reflexivity].
    apply bracketed_progress in E. simpl in E. lia.
  - destruct k as [|k].
    + destruct s; [|simpl in Lk; lia]. simpl.
      destruct (m []) as [[r rest]|] eqn:E; [|reflexivity].
      apply bracketed_progress in E. simpl in E. lia.
    + simpl. destruct (m s) as [[r rest]|] eqn:E.
      * apply bracketed_progress in E. f_equal. apply IH; lia.
      * destruct s as [|c s]; [reflexivity|]. simpl in *. f_equal. apply IH; lia.
Qed.

Lemma sub_unfold (s : text) :
  Regex.sub m s =
  match m s with
  | Some (r, rest) => r ++ Regex.sub m rest
  | None => match s with [] => [] | c :: s' => c :: Regex.sub m s' end
  end.
Proof.
  unfold Regex.sub. destruct s as [|c s].
  - simpl. destruct (m []) as [[r rest]|] eqn:E; [|reflexivity].
    apply bracketed_progress in E. simpl in E. lia.
  - cbn [length Regex.sub_from]. destruct (m (c :: s)) as [[r rest]|] eqn:E; [|reflexivity].
    apply bracketed_progress in E. simpl in E. f_equal. apply sub_from_fuel; lia.
Qed.

(** Where the pattern matches nowhere, nothing changes. *)
Lemma sub_id (s : text) :
  (forall a b, s = a ++ b -> m b = None) -> Regex.sub m s = s.
Proof.
  induction s as [|c s IH]; intros H; rewrite sub_unfold.
  - now rewrite (H [] []).
  - rewrite (H [] (c :: s) eq_refl). f_equal. apply IH.
    intros a b ->. apply (H (c :: a) b). reflexivity.
Qed.

Lemma safe_before_tail (c : char) (pre : text) :
  safe_before (c :: pre) -> safe_before pre.
Proof.
  intros H x a b E. specialize (H x (c :: a) b). simpl in H.
  rewrite E in H. specialize (H eq_refl). lia.
Qed.

(** Text in which no start text begins is copied. *)
Lemma sub_safe_before (pre t : text) :
  safe_before pre -> Regex.sub m (pre ++ t) = pre ++ Regex.sub m t.
Proof.
  induction pre as [|c pre IH]; intros H; [reflexivity|].
  rewrite sub_unfold. simpl.
  destruct (m (c :: pre ++ t)) as [[r rest]|] eqn:E.
  - destruct (br_start m Hm _ _ _ E) as (x & Ex).
    specialize (H t [] x Ex). simpl in H. lia.
  - f_equal. apply IH. eapply safe_before_tail; eauto.
Qed.

Lemma safe_after_no_match (t a b : text) :
  safe_after t -> t = a ++ b -> m b = None.
Proof.
  intros H ->. destruct (m b) as [[r rest]|] eqn:E; [|reflexivity].
  destruct (br_end m Hm _ _ _ E) as (u & ->).
  specialize (H [] (a ++ u) rest). simpl in H. rewrite <- app_assoc in H.
  specialize (H eq_refl). rewrite !length_app in H. unfold end_mark in H.
  simpl in H. lia.
Qed.

(** Text in which no end text ends is copied. *)
Lemma sub_safe_after (t : text) :
  safe_after t -> forall x, Regex.sub m (x ++ t) = Regex.sub m x ++ t.
Proof.
  intros H x. remember (length x) as n eqn:L.
  assert (Ln : length x <= n) by lia. clear L. revert x Ln.
  induction n as [|n IH]; intros x Ln.
  - destruct x; [|simpl in Ln; lia]. simpl.
    rewrite (sub_id t) by (intros a b E; eapply safe_after_no_match; eauto).
    reflexivity.
  - rewrite (sub_unfold (x ++ t)), (sub_unfold x).
    destruct (m (x ++ t)) as [[r rest']|] eqn:E.
    + destruct (br_end m Hm _ _ _ E) as (u & Eu).
      pose proof (H x u rest' Eu) as Lt.
      destruct (br_restrict m Hm _ _ _ _ E Lt) as (rest & -> & Ex).
      rewrite Ex, <- app_assoc. f_equal. apply IH.
      apply bracketed_progress in Ex. lia.
    + destruct (m x) as [[r rest]|] eqn:Ex.
      * rewrite (br_ext m Hm _ t _ _ Ex) in E. discriminate.
      * destruct x as [|c x]; simpl.
        -- destruct t as [|d t']; [reflexivity|]. f_equal. apply sub_id.
           intros a b E'. apply (safe_after_no_match _ (d :: a) b H).
           now rewrite E'.
        -- f_equal. apply IH. simpl in Ln. lia.
Qed.

End SubFacts.

(** * Both patterns are bracketed by the start text and the end text *)

Lemma strip_prefix_ext (p x t r : text) :
  Regex.strip_prefix p x = Some r -> Regex.strip_prefix p (x ++ t) = Some (r ++ t).
Proof.
  intros H. apply strip_prefix_sound in H. subst x.
  now rewrite <- app_assoc, strip_prefix_app.
Qed.

Lemma strip_prefix_restrict (p x t r' : text) :
  Regex.strip_prefix p (x ++ t) = Some r' -> length t <= length r' ->
  exists r, r' = r ++ t /\ Regex.strip_prefix p x = Some r.
Proof.
  intros H L. apply strip_prefix_sound in H.
  destruct (app_tail_split _ _ _ _ H L) as (r & -> & ->).
  exists r. split; [reflexivity|apply strip_prefix_app].
Qed.

Lemma split_at_first_length (p s b a : text) :
  split_at_first p s = Some (b, a) -> length a <= length s.
Proof.
  intros H. apply split_at_first_sound in H. subst. rewrite !length_app. lia.
Qed.

Lemma general_scan_shape (s r rest : text) :
  general_scan s = Some (r, rest) ->
  exists ours, s = start_nl ++ ours ++ sep_line ++ r ++ end_mark ++ rest.
Proof.
  unfold general_scan. intros H.
  destruct (Regex.strip_prefix start_nl s) as [s1|] eqn:E1; [|discriminate].
  destruct (split_at_first sep_line s1) as [[b s3]|] eqn:E2; [|discriminate].
  apply strip_prefix_sound in E1. apply split_at_first_sound in E2.
  apply split_at_first_sound in H. subst. now exists b.
Qed.

Lemma bracketed_general : bracketed general_conflict_pattern.
Proof.
  split; intros *; rewrite !general_conflict_pattern_scan.
  - intros H. apply general_scan_shape in H. destruct H as (o & ->). eauto.
  - intros H. apply general_scan_shape in H. destruct H as (o & ->).
    exists (start_nl ++ o ++ sep_line ++ r). now rewrite <- !app_assoc.
  - unfold general_scan. intros H.
    destruct (Regex.strip_prefix start_nl x) as [s1|] eqn:E1; [|discriminate].
    rewrite (strip_prefix_ext _ _ t _ E1).
    destruct (split_at_first sep_line s1) as [[b s3]|] eqn:E2; [|discriminate].
    rewrite (split_at_first_app _ _ t _ _ E2).
    now apply split_at_first_app.
  - unfold general_scan. intros H L.
    destruct (Regex.strip_prefix start_nl (x ++ t)) as [s1'|] eqn:E1; [|discriminate].
    destruct (split_at_first sep_line s1') as [[b s3']|] eqn:E2; [|discriminate].
    pose proof (split_at_first_length _ _ _ _ H) as L3.
    pose proof (split_at_first_length _ _ _ _ E2) as L2.
    destruct (strip_prefix_restrict _ _ _ _ E1) as (s1 & -> & ->); [lia|].
    destruct (split_at_first_restrict _ _ _ _ _ E2) as (s3 & -> & ->); [lia|].
    destruct (split_at_first_restrict _ _ _ _ _ H L) as (rest & -> & ->).
    eauto.
Qed.

Lemma drop_spaces_length (s : text) : length (drop_spaces s) <= length s.
Proof.
  induction s as [|c s IH]; simpl; [lia|].
  destruct (Regex.is_space c); simpl; lia.
Qed.

Lemma drop_spaces_split (s : text) : exists sp, s = sp ++ drop_spaces s.
Proof.
  induction s as [|c s (sp & IH)]; simpl.
  - now exists [].
  - destruct (Regex.is_space c).
    + exists (c :: sp). simpl. now f_equal.
    + now exists [].
Qed.

Lemma drop_spaces_app (s t : text) :
  drop_spaces (s ++ t) =
  match drop_spaces s with [] => drop_spaces t | _ => drop_spaces s ++ t end.
Proof.
  induction s as [|c s IH]; simpl.
  - reflexivity.
  - destruct (Regex.is_space c); [exact IH|reflexivity].
Qed.

Lemma vi_tail_end : vi_tail = (vi_decl ++ nl :: SEP) ++ end_mark.
Proof. reflexivity. Qed.

Lemma bracketed_vi : bracketed vi_conflict_pattern.
Proof.
  split; intros *; rewrite !vi_conflict_pattern_scan; unfold vi_scan.
  - intros H. destruct (Regex.strip_prefix start_nl s) as [s1|] eqn:E1; [|discriminate].
    apply strip_prefix_sound in E1. eauto.
  - intros H. destruct (Regex.strip_prefix start_nl s) as [s1|] eqn:E1; [|discriminate].
    destruct (Regex.strip_prefix vi_tail (drop_spaces s1)) as [x|] eqn:E2; [|discriminate].
    inversion H; subst. apply strip_prefix_sound in E1, E2.
    destruct (drop_spaces_split s1) as (sp & Es). rewrite E2, vi_tail_end in Es.
    exists (start_nl ++ sp ++ vi_decl ++ nl :: SEP).
    rewrite E1, Es. now rewrite <- !app_assoc.
  - intros H. destruct (Regex.strip_prefix start_nl x) as [s1|] eqn:E1; [|discriminate].
    rewrite (strip_prefix_ext _ _ t _ E1).
    destruct (Regex.strip_prefix vi_tail (drop_spaces s1)) as [y|] eqn:E2; [|discriminate].
    inversion H; subst. rewrite drop_spaces_app.
    destruct (drop_spaces s1) as [|d ds] eqn:D.
    + destruct vi_tail_head as (tl & T). rewrite T in E2. discriminate.
    + now rewrite (strip_prefix_ext _ _ t _ E2).
  - intros H L.
    destruct (Regex.strip_prefix start_nl (x ++ t)) as [s1'|] eqn:E1; [|discriminate].
    destruct (Regex.strip_prefix vi_tail (drop_spaces s1')) as [y|] eqn:E2; [|discriminate].
    inversion H; subst y r. clear H.
    pose proof (strip_prefix_sound _ _ _ E2) as S2.
    pose proof (drop_spaces_length s1') as Ld.
    assert (Lv : length (drop_spaces s1') = length vi_tail + length rest')
      by (rewrite S2; apply length_app).
    destruct (strip_prefix_restrict _ _ _ _ E1) as (s1 & -> & ->); [lia|].
    rewrite drop_spaces_app in E2, Lv.
    destruct (drop_spaces s1) as [|d ds] eqn:D.
    + exfalso. pose proof (drop_spaces_length t).
      destruct vi_tail_head as (tl & T). rewrite T in Lv. simpl in Lv. lia.
    + destruct (strip_prefix_restrict _ _ _ _ E2 L) as (rest & -> & ->). eauto.
Qed.

(** * Sufficient conditions for the frame hypotheses *)

Lemma safe_before_intro (pre : text) :
  occurs start_nl pre = false -> ends_clear pre = true -> safe_before pre.
Proof.
  intros Ho Hc x a b E.
  destruct (le_lt_dec (length pre) (length a)) as [|L]; [assumption|exfalso].
  rewrite occurs_false in Ho.
  apply app_eq_app in E. destruct E as (l & [[E1 E2]|[E1 E2]]).
  2:{ subst a. rewrite length_app in L. lia. }
  assert (Hl : l <> []) by (intros ->; subst pre; rewrite app_nil_r in L; lia).
  symmetry in E2. apply app_eq_app in E2. destruct E2 as (l2 & [[E3 E4]|[E3 E4]]).
  - subst l. apply (Ho a l2). now rewrite E1.
  - destruct (exists_last Hl) as (l' & c & ->).
    destruct l2 as [|d l2].
    + rewrite app_nil_r in E3. apply (Ho a []). rewrite E1, app_nil_r. now rewrite E3.
    + destruct (@exists_last _ (d :: l2)) as (l2' & e & El2); [discriminate|].
      rewrite El2 in E3. unfold start_nl in E3.
      rewrite app_assoc in E3. apply app_inj_tail in E3. destruct E3 as [E3 _].
      unfold ends_clear in Hc. rewrite E1, app_assoc, rev_app_distr in Hc. cbn [rev app] in Hc.
      apply negb_true_iff in Hc.
      assert (Hin : existsb (char_eqb c) START = true).
      { apply existsb_exists. exists c. split; [|now apply char_eqb_eq].
        rewrite E3, <- app_assoc. apply in_or_app. right. apply in_or_app. left.
        now left. }
      congruence.
Qed.

Lemma safe_after_intro (post : text) :
  occurs end_mark post = false -> starts_clear post = true -> safe_after post.
Proof.
  intros Ho Hc x a b E.
  destruct (le_lt_dec (length post) (length b)) as [|L]; [assumption|exfalso].
  rewrite occurs_false in Ho.
  apply app_eq_app in E. destruct E as (l & [[E1 E2]|[E1 E2]]).
  - (* the occurrence begins inside [x] *)
    apply app_eq_app in E2. destruct E2 as (l2 & [[E3 E4]|[E3 E4]]).
    + destruct l2 as [|d l2].
      * rewrite app_nil_r in E3. subst. simpl in L. lia.
      * destruct l as [|c l].
        -- simpl in E3. apply (Ho [] b). rewrite E4, <- E3. reflexivity.
        -- subst post. unfold starts_clear in Hc. cbn [app] in Hc.
           apply negb_true_iff in Hc.
           assert (Hin : existsb (char_eqb d) (tl end_mark) = true).
           { apply existsb_exists. exists d. split; [|now apply char_eqb_eq].
             rewrite E3. simpl. apply in_or_app. right. now left. }
           congruence.
    + subst b. rewrite !length_app in L. lia.
  - apply (Ho l b). exact E2.
Qed.

(** * The transformation leaves framed text alone *)

Lemma transform_safe_before (pre t : text) :
  safe_before pre -> transform (pre ++ t) = pre ++ transform t.
Proof.
  intros H. unfold transform, resolveGeneric, resolveSpecialCase.
  rewrite (sub_safe_before _ bracketed_vi) by assumption.
  now rewrite (sub_safe_before _ bracketed_general).
Qed.

Lemma transform_safe_after (t x : text) :
  safe_after t -> transform (x ++ t) = transform x ++ t.
Proof.
  intros H. unfold transform, resolveGeneric, resolveSpecialCase.
  rewrite (sub_safe_after _ bracketed_vi) by assumption.
  now rewrite (sub_safe_after _ bracketed_general).
Qed.

Lemma region_starts_clear (ours theirs label post : text) :
  starts_clear (region ours theirs label ++ post) = true.
Proof. reflexivity. Qed.

Lemma vi_match_has_decl (s r rest : text) :
  vi_conflict_pattern s = Some (r, rest) -> occurs vi_decl s = true.
Proof.
  rewrite vi_conflict_pattern_scan. unfold vi_scan. intros H.
  destruct (Regex.strip_prefix start_nl s) as [s1|] eqn:E1; [|discriminate].
  destruct (Regex.strip_prefix vi_tail (drop_spaces s1)) as [x|] eqn:E2; [|discriminate].
  apply strip_prefix_sound in E1, E2.
  destruct (drop_spaces_split s1) as (sp & Es). rewrite E2 in Es.
  apply occurs_true. exists (start_nl ++ sp), ((nl :: SEP ++ end_mark) ++ x).
  rewrite E1, Es. rewrite <- !app_assoc. reflexivity.
Qed.

Lemma special_case_id (content : text) :
  occurs vi_decl content = false -> resolveSpecialCase content = content.
Proof.
  intros H. apply (sub_id _ bracketed_vi). intros a b ->.
  apply occurs_suffix in H.
  destruct (vi_conflict_pattern b) as [[r rest]|] eqn:E; [|reflexivity].
  apply vi_match_has_decl in E. congruence.
Qed.

Lemma region_pieces (ours theirs post : text) :
  region (ours ++ [nl]) (theirs ++ [nl]) LABEL ++ post
  = start_nl ++ ours ++ sep_line ++ theirs ++ end_mark ++ nl :: post.
Proof.
  unfold region, start_nl, sep_line, end_mark, SEP, END_PREFIX.
  repeat (rewrite <- ?app_assoc; cbn [app]). reflexivity.
Qed.

(** * The scenarios *)

(** C6: on the text made of the start line, [const x = 1], the separator
    line, [const x = 2] and the end line labelled
    [test/test-failure-analysis], the transformation gives exactly
    [const x = 2] and a newline; the generic pass alone gives the same. *)
Theorem generic_scenario :
  transform ex_generic = line "const x = 2"
  /\ resolveGeneric ex_generic = line "const x = 2".
Proof. split; vm_compute; reflexivity. Qed.

(** C3, as the specification has it, fails: the result is not the empty
    text. *)
Lemma vi_scenario_not_empty : transform ex_vi <> [].
Proof. vm_compute. discriminate. Qed.

(** C3, amended: on the vi-declaration region followed by a newline the two
    passes leave exactly that newline: the pattern ends with the label, so
    the region goes and the newline after the end marker stays. *)
Theorem vi_scenario_leaves_newline :
  transform ex_vi = [nl] /\ resolveSpecialCase ex_vi = [nl].
Proof. split; vm_compute; reflexivity. Qed.

(** * Regions of another merge *)

(** C1, as stated, fails: a region labelled [some/other-branch] that is
    followed by a region with the expected label does not survive; the
    output does not contain it. *)
Lemma other_label_region_lost :
  lit "some/other-branch" <> LABEL
  /\ ~ (exists pre' post', transform ex_other_then_expected = pre' ++ ex_other ++ post').
Proof.
  split; [discriminate|]. intros (a & b & H).
  assert (O : occurs ex_other (transform ex_other_then_expected) = true)
    by (apply occurs_true; eauto).
  vm_compute in O. discriminate.
Qed.

(** C1, amended: a conflict region after whose start no end text of the
    expected merge (newline, [>>>>>>> test/test-failure-analysis]) occurs up
    to the end of the content is left byte-identical by the two passes,
    together with all that follows it, whatever precedes it. *)
Theorem other_label_region_kept (pre ours theirs label post : text) :
  occurs end_mark (region ours theirs label ++ post) = false ->
  transform (pre ++ region ours theirs label ++ post)
  = transform pre ++ region ours theirs label ++ post.
Proof.
  intros H. apply transform_safe_after.
  apply safe_after_intro; [assumption|apply region_starts_clear].
Qed.

Lemma other_label_region_kept_witness :
  transform (ex_generic ++ ex_other ++ line "tail")
  = line "const x = 2" ++ ex_other ++ line "tail".
Proof.
  apply (other_label_region_kept ex_generic (line "A") (line "B")
           (lit "some/other-branch") (line "tail")).
  vm_compute. reflexivity.
Defined.

(** * Text outside the regions *)

(** C5, as stated, fails: no line of [ex_note] is a start marker, so it lies
    outside every conflict region, and yet the output does not begin with
    it: its start text in mid-line opens a match that runs to the end marker
    of the region below and takes the line in between with it. *)
Lemma stray_start_rewrites_outside :
  has_start_line ex_note = false
  /\ transform ex_note_then_region = lit "note: " ++ line "B"
  /\ ~ (exists rest, transform ex_note_then_region = ex_note ++ rest).
Proof.
  split; [reflexivity|]. split; [vm_compute; reflexivity|].
  intros (rest & H). vm_compute in H. discriminate.
Qed.

(** C5, amended: text in which no start text ([<<<<<<< HEAD] and a newline)
    can begin and text in which no end text (a newline and
    [>>>>>>> test/test-failure-analysis]) can end are byte-identical before
    and after; only what lies between the two is transformed. *)
Theorem outside_text_kept (pre mid post : text) :
  safe_before pre -> safe_after post ->
  transform (pre ++ mid ++ post) = pre ++ transform mid ++ post.
Proof.
  intros Hb Ha. rewrite transform_safe_before by assumption.
  now rewrite transform_safe_after.
Qed.

Lemma outside_text_kept_witness :
  transform (line "keep" ++ ex_generic ++ line "# done")
  = line "keep" ++ line "const x = 2" ++ line "# done".
Proof.
  apply (outside_text_kept (line "keep") ex_generic (line "# done")).
  - apply safe_before_intro; vm_compute; reflexivity.
  - apply safe_after_intro; vm_compute; reflexivity.
Defined.

(** * Where a region starts *)

Lemma general_scan_region (ours theirs body post : text) :
  split_at_first sep_line (ours ++ sep_line ++ body) = Some (ours, body) ->
  split_at_first end_mark body = Some (theirs, post) ->
  general_conflict_pattern (start_nl ++ ours ++ sep_line ++ body) = Some (theirs, post).
Proof.
  intros H1 H2. rewrite general_conflict_pattern_scan. unfold general_scan.
  now rewrite strip_prefix_app, H1.
Qed.

(** C7, as stated, fails: in [ex_inline] the only start text comes after an
    [x] on its line, no line is a start marker, and the region that starts
    there is resolved all the same. *)
Lemma inline_start_resolved :
  has_start_line ex_inline = false
  /\ transform ex_inline = lit "x" ++ line "B"
  /\ transform ex_inline <> ex_inline.
Proof.
  split; [reflexivity|]. split; vm_compute; [reflexivity|discriminate].
Qed.

(** C7, amended: a start marker is recognised wherever the text
    [<<<<<<< HEAD] is followed at once by a newline, and nowhere else; what
    precedes it on its line is not looked at.  So a region after such a text
    [pre], with its separator the first one after the start and its end
    marker the first one after that, is replaced by its [theirs] lines (the
    vi declaration being absent from the content). *)
Theorem start_recognised_by_newline_only :
  (forall s r rest,
      general_conflict_pattern s = Some (r, rest)
      \/ vi_conflict_pattern s = Some (r, rest) ->
      exists x, s = START ++ nl :: x)
  /\ (forall pre ours theirs post,
        let body := theirs ++ end_mark ++ nl :: post in
        let content := pre ++ region (ours ++ [nl]) (theirs ++ [nl]) LABEL ++ post in
        safe_before pre ->
        split_at_first sep_line (ours ++ sep_line ++ body) = Some (ours, body) ->
        split_at_first end_mark body = Some (theirs, nl :: post) ->
        occurs vi_decl content = false ->
        transform content = pre ++ (theirs ++ [nl]) ++ transform post).
Proof.
  split.
  - intros s r rest [H|H].
    + destruct (br_start _ bracketed_general _ _ _ H) as (x & ->).
      exists x. unfold start_nl. now rewrite <- app_assoc.
    + destruct (br_start _ bracketed_vi _ _ _ H) as (x & ->).
      exists x. unfold start_nl. now rewrite <- app_assoc.
  - intros pre ours theirs post body content Hb H1 H2 Hv.
    assert (Hp : occurs vi_decl post = false).
    { subst content. rewrite app_assoc in Hv. now apply occurs_suffix in Hv. }
    unfold transform. rewrite (special_case_id content Hv), (special_case_id post Hp).
    subst content. unfold resolveGeneric.
    rewrite (sub_safe_before _ bracketed_general) by assumption.
    f_equal. rewrite region_pieces, (sub_unfold _ bracketed_general).
    fold body. rewrite (general_scan_region _ _ _ _ H1 H2).
    rewrite <- app_assoc. reflexivity.
Qed.

Lemma start_recognised_by_newline_only_witness :
  transform (lit "x" ++ region (lit "A" ++ [nl]) (lit "B" ++ [nl]) LABEL ++ line "rest")
  = lit "x" ++ (lit "B" ++ [nl]) ++ transform (line "rest").
Proof.
  apply (proj2 start_recognised_by_newline_only (lit "x") (lit "A") (lit "B") (line "rest")).
  - apply safe_before_intro; vm_compute; reflexivity.
  - vm_compute. reflexivity.
  - vm_compute. reflexivity.
  - vm_compute. reflexivity.
Defined.

(** * Regions with an empty segment *)

Lemma occurs_app_r (p a b : text) :
  occurs p b = true -> occurs p (a ++ b) = true.
Proof.
  rewrite !occurs_true. intros (u & v & ->). exists (a ++ u), v.
  now rewrite <- app_assoc.
Qed.

(** A later start has less text after it. *)
Lemma later_start (a y x : text) :
  a ++ start_nl ++ y = start_nl ++ x -> exists x0, x = x0 ++ y.
Proof.
  intros E. rewrite app_assoc in E.
  destruct (app_tail_split _ _ _ _ E) as (x0 & -> & _); [|eauto].
  apply (f_equal (@length _)) in E. rewrite !length_app in E. lia.
Qed.

(** No separator after the start: the generic pattern matches nowhere from
    there on. *)
Lemma general_needs_sep (x a b : text) :
  occurs sep_line x = false -> start_nl ++ x = a ++ b ->
  general_conflict_pattern b = None.
Proof.
  intros Hx E. destruct (general_conflict_pattern b) as [[r rest]|] eqn:M; [|reflexivity].
  rewrite general_conflict_pattern_scan in M. apply general_scan_shape in M.
  destruct M as (o & ->). symmetry in E. apply later_start in E.
  destruct E as (x0 & ->).
  assert (occurs sep_line (x0 ++ o ++ sep_line ++ r ++ end_mark ++ rest) = true).
  { apply occurs_app_r, occurs_true. eauto. }
  congruence.
Qed.

(** No end text after the first separator: the same. *)
Lemma general_needs_end (x ours body a b : text) :
  split_at_first sep_line x = Some (ours, body) ->
  occurs end_mark body = false -> start_nl ++ x = a ++ b ->
  general_conflict_pattern b = None.
Proof.
  intros Hs He E. destruct (general_conflict_pattern b) as [[r rest]|] eqn:M; [|reflexivity].
  rewrite general_conflict_pattern_scan in M. apply general_scan_shape in M.
  destruct M as (o & ->). symmetry in E. apply later_start in E.
  destruct E as (x0 & ->).
  pose proof (split_at_first_leftmost _ _ _ _ Hs (x0 ++ o) (r ++ end_mark ++ rest)) as L.
  rewrite <- app_assoc in L. specialize (L eq_refl).
  apply split_at_first_sound in Hs.
  assert (E : ((x0 ++ o) ++ sep_line) ++ r ++ end_mark ++ rest
              = (ours ++ sep_line) ++ body)
    by (rewrite <- !app_assoc; exact Hs).
  destruct (app_tail_split _ _ _ _ E) as (y & -> & _).
  { apply (f_equal (@length _)) in E. rewrite !length_app in E.
    rewrite !length_app in *. lia. }
  assert (occurs end_mark (y ++ r ++ end_mark ++ rest) = true).
  { apply occurs_app_r, occurs_true. eauto. }
  congruence.
Qed.

(** C10, as stated, fails: a region with an empty [ours] that is followed by
    another region of the same merge is not left as it is; the match that
    starts at its start marker takes the separator of the next region, and
    the output is the [theirs] of that one alone. *)
Lemma empty_ours_region_lost :
  resolveGeneric ex_empty_ours_then_region = line "C"
  /\ ~ (exists pre' post',
          resolveGeneric ex_empty_ours_then_region = pre' ++ ex_empty_ours ++ post').
Proof.
  split; [vm_compute; reflexivity|]. intros (a & b & H).
  assert (O : occurs ex_empty_ours (resolveGeneric ex_empty_ours_then_region) = true)
    by (apply occurs_true; eauto).
  vm_compute in O. discriminate.
Qed.

(** C10, amended: after text in which no start text begins, a region of the
    expected merge with an empty [ours] is left unchanged by [resolveGeneric],
    with all that follows it, when no further separator (newline, [=======],
    newline) occurs after its start line; a region with an empty [theirs] is
    left unchanged, with all that follows it, when its separator is the
    first one after its start and no end text (newline,
    [>>>>>>> test/test-failure-analysis]) occurs after that separator. *)
Theorem empty_segment_region_kept :
  (forall pre theirs post,
      safe_before pre ->
      occurs sep_line (SEP ++ nl :: theirs ++ END_PREFIX ++ LABEL ++ nl :: post) = false ->
      resolveGeneric (pre ++ region [] theirs LABEL ++ post)
      = pre ++ region [] theirs LABEL ++ post)
  /\ (forall pre ours post,
        let body := END_PREFIX ++ LABEL ++ nl :: post in
        safe_before pre ->
        split_at_first sep_line (ours ++ sep_line ++ body) = Some (ours, body) ->
        occurs end_mark body = false ->
        resolveGeneric (pre ++ region (ours ++ [nl]) [] LABEL ++ post)
        = pre ++ region (ours ++ [nl]) [] LABEL ++ post).
Proof.
  split.
  - intros pre theirs post Hb Hs. unfold resolveGeneric.
    rewrite (sub_safe_before _ bracketed_general) by assumption. f_equal.
    apply (sub_id _ bracketed_general). intros a b E.
    apply (general_needs_sep _ a b Hs). rewrite <- E.
    unfold region, start_nl. repeat (rewrite <- ?app_assoc; cbn [app]). reflexivity.
  - intros pre ours post body Hb Hs He. unfold resolveGeneric.
    rewrite (sub_safe_before _ bracketed_general) by assumption. f_equal.
    apply (sub_id _ bracketed_general). intros a b E.
    apply (general_needs_end _ _ _ a b Hs He). rewrite <- E.
    unfold region, start_nl, sep_line, body.
    repeat (rewrite <- ?app_assoc; cbn [app]). reflexivity.
Qed.

Lemma empty_segment_region_kept_witness :
  resolveGeneric (line "keep" ++ ex_empty_ours ++ line "tail")
  = line "keep" ++ ex_empty_ours ++ line "tail"
  /\ resolveGeneric (line "keep" ++ ex_empty_theirs ++ line "tail")
     = line "keep" ++ ex_empty_theirs ++ line "tail".
Proof.
  split.
  - apply (proj1 empty_segment_region_kept (line "keep") (line "A") (line "tail")).
    + apply safe_before_intro; vm_compute; reflexivity.
    + vm_compute. reflexivity.
  - apply (proj2 empty_segment_region_kept (line "keep") (lit "A") (line "tail")).
    + apply safe_before_intro; vm_compute; reflexivity.
    + vm_compute. reflexivity.
    + vm_compute. reflexivity.
Defined.

(** * Running the transformation again *)

Lemma general_match_has_all (s r rest : text) :
  general_conflict_pattern s = Some (r, rest) ->
  occurs start_nl s = true /\ occurs sep_line s = true /\ occurs end_mark s = true.
Proof.
  rewrite general_conflict_pattern_scan. intros H.
  apply general_scan_shape in H. destruct H as (o & ->).
  split; [|split]; apply occurs_true.
  - exists [], (o ++ sep_line ++ r ++ end_mark ++ rest). reflexivity.
  - exists (start_nl ++ o), (r ++ end_mark ++ rest). now rewrite <- app_assoc.
  - exists (start_nl ++ o ++ sep_line ++ r), rest. now rewrite <- !app_assoc.
Qed.

Lemma vi_match_has_all (s r rest : text) :
  vi_conflict_pattern s = Some (r, rest) ->
  occurs start_nl s = true /\ occurs sep_line s = true /\ occurs end_mark s = true.
Proof.
  rewrite vi_conflict_pattern_scan. unfold vi_scan. intros H.
  destruct (Regex.strip_prefix start_nl s) as [s1|] eqn:E1; [|discriminate].
  destruct (Regex.strip_prefix vi_tail (drop_spaces s1)) as [x|] eqn:E2; [|discriminate].
  apply strip_prefix_sound in E1, E2.
  destruct (drop_spaces_split s1) as (sp & Es). rewrite E2 in Es. subst s s1.
  split; [|split]; apply occurs_true.
  - exists [], (sp ++ vi_tail ++ x). reflexivity.
  - exists (start_nl ++ sp ++ vi_decl), (END_PREFIX ++ LABEL ++ x).
    rewrite <- !app_assoc. reflexivity.
  - exists (start_nl ++ sp ++ vi_decl ++ nl :: SEP), x.
    rewrite <- !app_assoc. reflexivity.
Qed.

(** C4, as stated, fails: on [ex_regrow] the first run leaves a complete
    region, put together from a [theirs] that is a start line and the text
    after the end marker, and the second run resolves it. *)
Lemma second_run_changes :
  transform ex_regrow = region (line "A") (line "B") LABEL
  /\ transform (transform ex_regrow) = line "B"
  /\ transform (transform ex_regrow) <> transform ex_regrow.
Proof.
  split; [vm_compute; reflexivity|]. split; vm_compute; [reflexivity|discriminate].
Qed.

(** C4, amended: when the output of one run of the two passes does not
    hold all three of the start text, the separator text and the end text,
    a second run gives the same output. *)
Theorem second_run_idle (content : text) :
  occurs start_nl (transform content) && occurs sep_line (transform content)
  && occurs end_mark (transform content) = false ->
  transform (transform content) = transform content.
Proof.
  intros H. set (out := transform content) in *.
  assert (V : forall a b, out = a ++ b -> vi_conflict_pattern b = None).
  { intros a b E. destruct (vi_conflict_pattern b) as [[r rest]|] eqn:M; [|reflexivity].
    apply vi_match_has_all in M. destruct M as (M1 & M2 & M3).
    apply (occurs_app_r _ a) in M1, M2, M3. rewrite <- E in *.
    rewrite M1, M2, M3 in H. discriminate. }
  assert (G : forall a b, out = a ++ b -> general_conflict_pattern b = None).
  { intros a b E. destruct (general_conflict_pattern b) as [[r rest]|] eqn:M; [|reflexivity].
    apply general_match_has_all in M. destruct M as (M1 & M2 & M3).
    apply (occurs_app_r _ a) in M1, M2, M3. rewrite <- E in *.
    rewrite M1, M2, M3 in H. discriminate. }
  unfold transform at 1, resolveSpecialCase, resolveGeneric.
  rewrite (sub_id _ bracketed_vi out V). apply (sub_id _ bracketed_general out G).
Qed.

Lemma second_run_idle_witness :
  transform (transform ex_generic) = transform ex_generic.
Proof.
  apply (second_run_idle ex_generic). vm_compute. reflexivity.
Defined.

(** * The scripts on files *)

Lemma occurs_START_of_start_nl (s : text) :
  occurs start_nl s = true -> occurs START s = true.
Proof.
  rewrite !occurs_true. intros (a & b & ->). exists a, (nl :: b).
  unfold start_nl. now rewrite <- app_assoc.
Qed.

(** Without the start marker neither pass changes the content. *)
Lemma no_start_no_change (content : text) :
  occurs START content = false ->
  resolveSpecialCase content = content /\ resolveGeneric content = content.
Proof.
  intros H.
  assert (N : forall m, bracketed m -> forall a b, content = a ++ b -> m b = None).
  { intros m Hm a b ->. destruct (m b) as [[r rest]|] eqn:E; [|reflexivity].
    destruct (br_start m Hm _ _ _ E) as (x & ->).
    assert (occurs start_nl (a ++ start_nl ++ x) = true) by (apply occurs_true; eauto).
    apply occurs_START_of_start_nl in H0. congruence. }
  split; [apply (sub_id _ bracketed_vi), N, bracketed_vi
        |apply (sub_id _ bracketed_general), N, bracketed_general].
Qed.

(** [resolve_generic_conflicts] on a readable file without the start
    marker: one line [No conflicts found], no write. *)
Lemma generic_no_marker (w : world) (p : path) (pref : string) (wr : bool) (data : text) :
  fs w p = Some (Regular true wr data) -> occurs START data = false ->
  resolve_generic_conflicts p pref w = (inr tt, printed w (NoConflict p)).
Proof.
  intros F H. unfold resolve_generic_conflicts, try_except, bind, read_file.
  rewrite F, H. reflexivity.
Qed.

(** [resolve_conflicts] on a readable and writable file without the start
    marker: the same content is written back and [Resolved] is printed. *)
Lemma conflicts_no_marker (w : world) (p : path) (data : text) :
  fs w p = Some (Regular true true data) -> occurs START data = false ->
  resolve_conflicts p w
  = (inr tt, World (update (fs w) p (Regular true true data))
                   (stdout w ++ [Resolved p]) (writes w ++ [(p, data)])).
Proof.
  intros F H. destruct (no_start_no_change _ H) as [E1 E2].
  unfold resolve_conflicts, bind, read_file, write_file, print.
  rewrite F. fold (resolveSpecialCase data). rewrite E1.
  fold (resolveGeneric data). rewrite E2, F. reflexivity.
Qed.

(** C2 holds of [resolve_generic_conflicts] and fails of
    [resolve_conflicts], which has no test for the start marker: on
    [src/main/__tests__/baseline.test.ts], a path of [conflict_files], with
    the content [hello] and no marker, the first prints [No conflicts found]
    and writes nothing, the second writes the content back and prints
    [Resolved conflicts]. *)
Theorem no_marker_file_two_scripts :
  In baseline_ts conflict_files
  /\ fs w_sample baseline_ts = Some (Regular true true (line "hello"))
  /\ occurs START (line "hello") = false
  /\ (let w := snd (resolve_generic_conflicts baseline_ts "test" w_sample) in
      stdout w = [NoConflict baseline_ts] /\ writes w = [])
  /\ (let w := snd (resolve_conflicts baseline_ts w_sample) in
      stdout w = [Resolved baseline_ts]
      /\ writes w = [(baseline_ts, line "hello")]).
Proof.
  split; [unfold conflict_files, baseline_ts; simpl; tauto|].
  repeat split.
Qed.

(** * The loops over the file lists *)

Lemma exists_in_update (w : world) (p q : path) (n : node) (so : list FileOutcome)
      (wr : list (path * text)) :
  exists_in w p = true ->
  exists_in (World (update (fs w) p n) so wr) q = exists_in w q.
Proof.
  unfold exists_in, update. simpl. intros H.
  destruct (String.eqb q p) eqn:E; [|reflexivity].
  apply String.eqb_eq in E. subst q. now destruct (fs w p).
Qed.

Lemma conflict_files_body_ok (p : path) (w : world) :
  turn_ok p w (conflict_files_body p w).
Proof.
  unfold turn_ok, conflict_files_body, bind, path_exists, try_except,
    resolve_conflicts, bind, read_file, write_file, print, ret.
  destruct (exists_in w p) eqn:X; unfold exists_in in X.
  - destruct (fs w p) as [[|r wr data]|] eqn:F; [| |discriminate].
    + cbn. rewrite ?F. repeat split; eauto.
    + destruct r; [|cbn; rewrite ?F; repeat split; eauto].
      cbn. rewrite ?F. destruct wr; cbn; repeat split; eauto.
      intros q. apply exists_in_update. unfold exists_in. now rewrite ?F.
  - cbn. repeat split. exists []. now rewrite app_nil_r.
Qed.

Lemma additional_files_body_ok (p : path) (pref : string) (w : world) :
  turn_ok p w (additional_files_body (p, pref) w).
Proof.
  unfold turn_ok, additional_files_body, bind, path_exists, try_except,
    resolve_generic_conflicts, try_except, bind, read_file, write_file, print, ret.
  destruct (exists_in w p) eqn:X; unfold exists_in in X.
  - destruct (fs w p) as [[|r wr data]|] eqn:F; [| |discriminate].
    + cbn. rewrite ?F. repeat split; eauto.
    + destruct r; [|cbn; rewrite ?F; repeat split; eauto].
      destruct (negb (occurs START data)); [cbn; rewrite ?F; repeat split; eauto|].
      rewrite ?F. destruct wr; cbn; repeat split; eauto.
      intros q. apply exists_in_update. unfold exists_in. now rewrite ?F.
  - cbn. repeat split. exists []. now rewrite app_nil_r.
Qed.

Section Loop.

Context {X : Type}.
Variable body : X -> M unit.
Variable key : X -> path.
Hypothesis body_ok : forall x w, turn_ok (key x) w (body x w).

(** A loop of such turns ends normally, keeps every path that exists and
    prints one line per existing path, in the order of the list. *)
Lemma for_each_ok (l : list X) : forall w,
  fst (for_each body l w) = inr tt
  /\ (forall q, exists_in (snd (for_each body l w)) q = exists_in w q)
  /\ exists outs,
       stdout (snd (for_each body l w)) = stdout w ++ outs
       /\ map outcome_path outs = filter (exists_in w) (map key l).
Proof.
  induction l as [|x l IH]; intros w.
  - cbn. repeat split. exists []. now rewrite app_nil_r.
  - cbn [for_each map filter]. unfold bind.
    destruct (body_ok x w) as (R & K & outs & So & Po).
    destruct (body x w) as [[e|[]] w1]; simpl in R, K, So; [discriminate|].
    destruct (IH w1) as (R' & K' & outs' & So' & Po').
    split; [assumption|]. split; [intros q; now rewrite K', K|].
    exists (outs ++ outs'). split.
    + now rewrite So', So, app_assoc.
    + rewrite map_app, Po, Po'.
      rewrite (filter_ext _ _ K).
      now destruct (exists_in w (key x)).
Qed.

End Loop.

(** C8: either loop prints exactly one outcome per path of its list that
    exists, in the order of the list; a path that does not exist adds no
    outcome and no error, and the loop ends normally. *)
Theorem batch_one_outcome_per_existing_path :
  (forall conflict_files w,
      let res := process_conflict_files conflict_files w in
      fst res = inr tt
      /\ exists outs,
           stdout (snd res) = stdout w ++ outs
           /\ map outcome_path outs = filter (exists_in w) conflict_files)
  /\ (forall additional_files w,
        let res := process_additional_files additional_files w in
        fst res = inr tt
        /\ exists outs,
             stdout (snd res) = stdout w ++ outs
             /\ map outcome_path outs
                = filter (exists_in w) (map fst additional_files)).
Proof.
  split.
  - intros l w res.
    destruct (for_each_ok conflict_files_body (fun p => p) conflict_files_body_ok l w)
      as (R & _ & outs & So & Po).
    rewrite map_id in Po. split; [exact R|]. exists outs. now split.
  - intros l w res.
    assert (B : forall x w, turn_ok (fst x) w (additional_files_body x w))
      by (intros [p pref] w'; apply additional_files_body_ok).
    destruct (for_each_ok additional_files_body fst B l w) as (R & _ & outs & So & Po).
    split; [exact R|]. exists outs. now split.
Qed.

(** * Failures of [open] *)

Lemma read_file_world (p : path) (w : world) : snd (read_file p w) = w.
Proof.
  unfold read_file. destruct (fs w p) as [[|[] ? ?]|]; reflexivity.
Qed.

Lemma write_file_failed (p : path) (c : text) (w : world) (e : exn) :
  fst (write_file p c w) = inl e -> write_file p c w = (inl e, w).
Proof.
  unfold write_file. destruct (fs w p) as [[|? [] ?]|]; simpl; congruence.
Qed.

Lemma read_file_result (p : path) (w : world) :
  read_file p w = (fst (read_file p w), w).
Proof.
  rewrite <- (read_file_world p w) at 3. now destruct (read_file p w).
Qed.

(** C9: in either loop, when [open] fails on an existing path, for reading
    or for writing, the failure is caught, one [Error processing] line with
    the message of the exception is printed, nothing else changes, and the
    loop goes on with the rest of the list; and no loop ever ends in an
    exception. *)
Theorem io_failure_reported_and_batch_continues :
  (forall p rest w e,
      exists_in w p = true ->
      (fst (read_file p w) = inl e
       \/ exists c, fst (read_file p w) = inr c
                    /\ fst (write_file p (transform c) w) = inl e) ->
      process_conflict_files (p :: rest) w
      = process_conflict_files rest (printed w (Error p (str e))))
  /\ (forall p pref rest w e,
        exists_in w p = true ->
        (fst (read_file p w) = inl e
         \/ exists c, fst (read_file p w) = inr c
                      /\ occurs START c = true
                      /\ fst (write_file p (if String.eqb pref "test"
                                            then resolveGeneric c else c) w) = inl e) ->
        process_additional_files ((p, pref) :: rest) w
        = process_additional_files rest (printed w (Error p (str e))))
  /\ (forall conflict_files w, fst (process_conflict_files conflict_files w) = inr tt)
  /\ (forall additional_files w,
        fst (process_additional_files additional_files w) = inr tt).
Proof.
  split; [|split; [|split]].
  - intros p rest w e X H. unfold process_conflict_files. cbn [for_each].
    unfold bind at 1. unfold conflict_files_body, bind at 1, path_exists. rewrite X.
    unfold try_except, resolve_conflicts, bind.
    rewrite (read_file_result p w). destruct H as [H|(c & H & Hw)]; rewrite H.
    + reflexivity.
    + fold (resolveSpecialCase c). fold (resolveGeneric (resolveSpecialCase c)).
      fold (transform c). rewrite (write_file_failed _ _ _ _ Hw). reflexivity.
  - intros p pref rest w e X H. unfold process_additional_files. cbn [for_each].
    unfold bind at 1. unfold additional_files_body, bind at 1, path_exists. rewrite X.
    unfold resolve_generic_conflicts, try_except, bind.
    rewrite (read_file_result p w). destruct H as [H|(c & H & Ho & Hw)]; rewrite H.
    + reflexivity.
    + rewrite Ho. cbn [negb]. fold (resolveGeneric c).
      rewrite (write_file_failed _ _ _ _ Hw). reflexivity.
  - intros l w.
    exact (proj1 (for_each_ok conflict_files_body (fun p => p) conflict_files_body_ok l w)).
  - intros l w.
    assert (B : forall x w, turn_ok (fst x) w (additional_files_body x w))
      by (intros [p pref] w'; apply additional_files_body_ok).
    exact (proj1 (for_each_ok additional_files_body fst B l w)).
Qed.

Lemma io_failure_reported_and_batch_continues_witness :
  process_conflict_files [lifecycle_ts; baseline_ts] w_sample
  = process_conflict_files [baseline_ts]
      (printed w_sample (Error lifecycle_ts (str (PermissionError lifecycle_ts))))
  /\ process_additional_files [(startup_sh, "test"%string);
                               (progress_md, "test"%string)] w_sample
     = process_additional_files [(progress_md, "test"%string)]
         (printed w_sample (Error startup_sh (str (PermissionError startup_sh)))).
Proof.
  split.
  - apply (proj1 io_failure_reported_and_batch_continues).
    + reflexivity.
    + left. reflexivity.
  - apply (proj1 (proj2 io_failure_reported_and_batch_continues)).
    + reflexivity.
    + right. exists ex_generic. repeat split.
Defined.

(** The batch scenario of the specification: an existing file without
    markers and a path that does not exist give one outcome. *)
Example batch_scenario :
  stdout (snd (process_additional_files
                 [(baseline_ts, "test"%string);
                  ("missing.ts"%string, "test"%string)] w_sample))
  = [NoConflict baseline_ts].
Proof. reflexivity. Qed.

(** The two programs on the sample tree: each prints one line per existing
    path of its list. *)
Example programs_on_sample :
  stdout (snd (run_resolve_conflicts w_sample))
  = [Resolved baseline_ts; Error lifecycle_ts (str (PermissionError lifecycle_ts))]
  /\ stdout (snd (run_resolve_remaining w_sample))
     = [Error startup_sh (str (PermissionError startup_sh)); Resolved progress_md].
Proof. split; vm_compute; reflexivity. Qed.

(** * More on the two patterns *)

Lemma removelast_app_last (p : text) :
  p <> [] -> exists c, p = removelast p ++ [c].
Proof.
  intros H. exists (last p 0%N). now apply app_removelast_last.
Qed.

(** An occurrence that ends before the last character of the literal at
    [o] ends is an occurrence in [o ++ removelast p]. *)
Lemma first_occ_intro (p o r : text) :
  p <> [] -> occurs p (o ++ removelast p) = false ->
  split_at_first p (o ++ p ++ r) = Some (o, r).
Proof.
  intros Hp. destruct (removelast_app_last p Hp) as (d & Ep).
  induction o as [|c o IH]; intros H.
  - exact (split_at_first_head _ _ _ (strip_prefix_app p r)).
  - cbn [app split_at_first].
    destruct (Regex.strip_prefix p (c :: o ++ p ++ r)) as [x|] eqn:S.
    + exfalso. apply strip_prefix_sound in S.
      rewrite occurs_false in H.
      assert (E : p ++ x = ((c :: o) ++ removelast p) ++ d :: r).
      { rewrite <- S. rewrite Ep at 1. simpl. now rewrite <- !app_assoc. }
      apply app_eq_app in E. destruct E as (l & [[E1 E2]|[E1 E2]]).
      * assert (El : l = []).
        { apply (f_equal (@length _)) in E1.
          rewrite Ep in E1 at 1. rewrite !length_app in E1. simpl in E1.
          destruct l as [|e l]; [reflexivity|simpl in E1; lia]. }
        subst l. rewrite app_nil_r in E1. apply (H [] []).
        rewrite app_nil_r. exact (eq_sym E1).
      * apply (H [] l). now rewrite E1.
    + simpl in H. change (c :: o ++ removelast p) with ([c] ++ o ++ removelast p) in H.
      apply occurs_suffix in H. now rewrite (IH H).
Qed.

Lemma first_occ_elim (p s o r : text) :
  p <> [] -> split_at_first p s = Some (o, r) ->
  occurs p (o ++ removelast p) = false.
Proof.
  intros Hp H. destruct (removelast_app_last p Hp) as (d & Ep).
  apply occurs_false. intros a b E.
  pose proof (split_at_first_leftmost _ _ _ _ H a (b ++ d :: r)) as L.
  apply split_at_first_sound in H.
  assert (Es : s = a ++ p ++ b ++ d :: r).
  { rewrite H. rewrite Ep at 1. rewrite <- app_assoc, app_assoc, E.
    now rewrite <- !app_assoc. }
  specialize (L Es). apply (f_equal (@length _)) in E.
  rewrite !length_app in E. rewrite Ep in E at 2. rewrite length_app in E.
  simpl in E. lia.
Qed.

Lemma sep_line_nonempty : sep_line <> [].
Proof. discriminate. Qed.

Lemma end_mark_nonempty : end_mark <> [].
Proof. discriminate. Qed.

Lemma drop_spaces_split_spaces (s : text) :
  exists sp, s = sp ++ drop_spaces s /\ forallb Regex.is_space sp = true.
Proof.
  induction s as [|c s (sp & IH & Hs)]; simpl.
  - now exists [].
  - destruct (Regex.is_space c) eqn:E.
    + exists (c :: sp). simpl. rewrite E. split; [now f_equal|assumption].
    + now exists [].
Qed.

Lemma drop_spaces_all (sp t : text) :
  forallb Regex.is_space sp = true -> drop_spaces (sp ++ t) = drop_spaces t.
Proof.
  induction sp as [|c sp IH]; simpl; [reflexivity|].
  intros H. apply andb_true_iff in H. destruct H as [H1 H2].
  rewrite H1. now apply IH.
Qed.

Lemma drop_spaces_vi_tail (rest : text) :
  drop_spaces (vi_tail ++ rest) = vi_tail ++ rest.
Proof. destruct vi_tail_head as (tl & ->). reflexivity. Qed.

(** X1: the generic pattern matches at the head of a text exactly when the
    text is the start text, a first group in which (with the newline and
    [=======] after it) no separator text occurs, the separator text, a
    second group in which (with the end text short of its last character)
    no end text occurs, and the end text; the replacement is the second
    group and the scan goes on after the label.  Backtracking never takes a
    later separator or end marker. *)
Theorem general_match_iff (s theirs rest : text) :
  general_conflict_pattern s = Some (theirs, rest)
  <-> exists ours,
        s = start_nl ++ ours ++ sep_line ++ theirs ++ end_mark ++ rest
        /\ occurs sep_line (ours ++ removelast sep_line) = false
        /\ occurs end_mark (theirs ++ removelast end_mark) = false.
Proof.
  rewrite general_conflict_pattern_scan. unfold general_scan. split.
  - intros H.
    destruct (Regex.strip_prefix start_nl s) as [s1|] eqn:E1; [|discriminate].
    destruct (split_at_first sep_line s1) as [[o s3]|] eqn:E2; [|discriminate].
    exists o. split; [|split].
    + apply strip_prefix_sound in E1. apply split_at_first_sound in E2, H.
      now subst.
    + eapply first_occ_elim; eauto using sep_line_nonempty.
    + eapply first_occ_elim; eauto using end_mark_nonempty.
  - intros (o & -> & Ho & Ht). rewrite strip_prefix_app.
    rewrite (first_occ_intro _ _ _ sep_line_nonempty Ho).
    apply (first_occ_intro _ _ _ end_mark_nonempty Ht).
Qed.

(** X2: the vi pattern matches at the head of a text exactly when the text
    is the start text, any run of whitespace (spaces, tabs, blank lines),
    the declaration, the separator line and the end marker with the
    expected label; the replacement is empty. *)
Theorem vi_match_iff (s r rest : text) :
  vi_conflict_pattern s = Some (r, rest)
  <-> r = []
      /\ exists sp, forallb Regex.is_space sp = true
                    /\ s = start_nl ++ sp ++ vi_tail ++ rest.
Proof.
  rewrite vi_conflict_pattern_scan. unfold vi_scan. split.
  - intros H.
    destruct (Regex.strip_prefix start_nl s) as [s1|] eqn:E1; [|discriminate].
    destruct (Regex.strip_prefix vi_tail (drop_spaces s1)) as [x|] eqn:E2; [|discriminate].
    inversion H; subst. split; [reflexivity|].
    apply strip_prefix_sound in E1, E2.
    destruct (drop_spaces_split_spaces s1) as (sp & Es & Hs).
    exists sp. split; [assumption|]. rewrite E1, Es at 1. now rewrite E2.
  - intros (-> & sp & Hs & ->). rewrite strip_prefix_app.
    rewrite (drop_spaces_all _ _ Hs), drop_spaces_vi_tail.
    now rewrite strip_prefix_app.
Qed.

(** * Whole texts *)

Lemma sub_general_after_label (rest : text) :
  Regex.sub general_conflict_pattern (nl :: rest)
  = nl :: Regex.sub general_conflict_pattern rest.
Proof. reflexivity. Qed.

Lemma resolve_clean_region (ours theirs rest : text) :
  occurs sep_line (ours ++ removelast sep_line) = false ->
  occurs end_mark (theirs ++ removelast end_mark) = false ->
  resolveGeneric (region (ours ++ [nl]) (theirs ++ [nl]) LABEL ++ rest)
  = (theirs ++ [nl]) ++ resolveGeneric rest.
Proof.
  intros Ho Ht. unfold resolveGeneric.
  rewrite region_pieces, (sub_unfold _ bracketed_general).
  rewrite (general_scan_region ours theirs (theirs ++ end_mark ++ nl :: rest) (nl :: rest)).
  - rewrite sub_general_after_label, <- app_assoc. reflexivity.
  - apply (first_occ_intro _ _ _ sep_line_nonempty Ho).
  - apply (first_occ_intro _ _ _ end_mark_nonempty Ht).
Qed.

Lemma clean_piece_parts (p : piece) :
  clean_piece p = true ->
  safe_before (p_gap p)
  /\ occurs sep_line (p_ours p ++ removelast sep_line) = false
  /\ occurs end_mark (p_theirs p ++ removelast end_mark) = false.
Proof.
  unfold clean_piece. rewrite !andb_true_iff, !negb_true_iff.
  intros [[[H1 H2] H3] H4]. split; [now apply safe_before_intro|now split].
Qed.

Lemma resolve_clean_pieces (ps : list piece) (tail : text) :
  forallb clean_piece ps = true ->
  resolveGeneric (flat_map conflicted_piece ps ++ tail)
  = flat_map resolved_piece ps ++ resolveGeneric tail.
Proof.
  induction ps as [|p ps IH]; intros H; [reflexivity|].
  cbn [forallb] in H. apply andb_true_iff in H. destruct H as [Hp Hps].
  destruct (clean_piece_parts p Hp) as (Hg & Ho & Ht).
  cbn [flat_map]. unfold conflicted_piece at 1, resolved_piece at 1.
  rewrite <- !app_assoc. unfold resolveGeneric at 1.
  rewrite (sub_safe_before _ bracketed_general) by assumption. f_equal.
  fold (resolveGeneric (region (p_ours p ++ [nl]) (p_theirs p ++ [nl]) LABEL ++
                          flat_map conflicted_piece ps ++ tail)).
  rewrite (resolve_clean_region _ _ _ Ho Ht), (IH Hps).
  now rewrite <- !app_assoc.
Qed.

(** X3: on a text made of clean pieces (a gap in which no start text
    begins, then a region of the expected merge whose segments hold no
    separator text resp. no end text) followed by any tail, the generic
    pass replaces every region by its [theirs] lines, from left to right,
    keeps the gaps, and goes on with the tail; when the declaration text
    does not occur in the content at all, the two passes of
    [resolve_conflicts] do the same. *)
Theorem clean_regions_resolved_in_order (ps : list piece) (tail : text) :
  forallb clean_piece ps = true ->
  resolveGeneric (flat_map conflicted_piece ps ++ tail)
  = flat_map resolved_piece ps ++ resolveGeneric tail
  /\ (occurs vi_decl (flat_map conflicted_piece ps ++ tail) = false ->
      transform (flat_map conflicted_piece ps ++ tail)
      = flat_map resolved_piece ps ++ transform tail).
Proof.
  intros H. split; [now apply resolve_clean_pieces|].
  intros Hv. unfold transform. rewrite (special_case_id _ Hv).
  apply occurs_suffix in Hv. rewrite (special_case_id _ Hv).
  now apply resolve_clean_pieces.
Qed.

Lemma clean_regions_resolved_in_order_witness :
  resolveGeneric
    (flat_map conflicted_piece
       [Piece (line "a") (lit "x = 1") (lit "x = 2");
        Piece (line "b") (lit "y = 1") (lit "y = 2")] ++ line "c")
  = line "a" ++ line "x = 2" ++ line "b" ++ line "y = 2" ++ line "c".
Proof.
  apply (proj1 (clean_regions_resolved_in_order
                  [Piece (line "a") (lit "x = 1") (lit "x = 2");
                   Piece (line "b") (lit "y = 1") (lit "y = 2")] (line "c")
                  eq_refl)).
Defined.

(** X4: after text in which no start text begins, the special-case pass
    deletes the start line, the declaration line with whatever whitespace
    stands before the declaration, the separator line and the end marker
    up to its label, and goes on with what follows the label. *)
Theorem special_case_deletes_declaration (pre sp post : text) :
  safe_before pre -> forallb Regex.is_space sp = true ->
  resolveSpecialCase (pre ++ start_nl ++ sp ++ vi_tail ++ post)
  = pre ++ resolveSpecialCase post.
Proof.
  intros Hb Hs. unfold resolveSpecialCase.
  rewrite (sub_safe_before _ bracketed_vi) by assumption. f_equal.
  rewrite (sub_unfold _ bracketed_vi), vi_conflict_pattern_scan. unfold vi_scan.
  rewrite strip_prefix_app, (drop_spaces_all _ _ Hs), drop_spaces_vi_tail.
  now rewrite strip_prefix_app.
Qed.

Lemma special_case_deletes_declaration_witness :
  resolveSpecialCase (line "keep" ++ start_nl ++ [nl; 9%N; 32%N] ++ vi_tail ++ line "")
  = line "keep" ++ resolveSpecialCase (line "").
Proof.
  apply (special_case_deletes_declaration (line "keep") [nl; 9%N; 32%N] (line "")).
  - apply safe_before_intro; vm_compute; reflexivity.
  - reflexivity.
Defined.

(** X5: a content in which the declaration text
    [const vi: typeof import('vitest').vi] does not occur is left as it is
    by the special-case pass. *)
Theorem special_case_needs_declaration (content : text) :
  occurs vi_decl content = false -> resolveSpecialCase content = content.
Proof. apply special_case_id. Qed.

Lemma special_case_needs_declaration_witness :
  resolveSpecialCase ex_generic = ex_generic.
Proof. apply (special_case_needs_declaration ex_generic). reflexivity. Defined.

(** * The passes only delete *)

Lemma subseq_refl (a : text) : subseq a a.
Proof. induction a; constructor; assumption. Qed.

Lemma subseq_skip_app (u a b : text) : subseq a b -> subseq a (u ++ b).
Proof. intros H. induction u; simpl; [assumption|now constructor]. Qed.

Lemma subseq_keep_app (u a b : text) : subseq a b -> subseq (u ++ a) (u ++ b).
Proof. intros H. induction u; simpl; [assumption|now constructor]. Qed.

Lemma subseq_length (a b : text) : subseq a b -> length a <= length b.
Proof. induction 1; simpl; lia. Qed.

Lemma subseq_trans (a b c : text) : subseq a b -> subseq b c -> subseq a c.
Proof.
  intros H1 H2. revert a H1. induction H2; intros x H1.
  - assumption.
  - constructor. now apply IHsubseq.
  - inversion H1; subst; constructor; now apply IHsubseq.
Qed.

Section Deleting.

Variable m : text -> option Regex.result.
Hypothesis Hm : bracketed m.
(** The replacement is a piece of what the match consumed. *)
Hypothesis Hdel : forall s r rest,
    m s = Some (r, rest) -> exists u v, s = u ++ r ++ v ++ rest /\ u <> [].

Lemma sub_subseq_fuel : forall n s, length s <= n -> subseq (Regex.sub m s) s.
Proof.
  induction n as [|n IH]; intros s L.
  - destruct s; [|simpl in L; lia]. rewrite (sub_unfold m Hm).
    destruct (m []) as [[r rest]|] eqn:E; [|constructor].
    apply (bracketed_progress m Hm) in E. simpl in E. lia.
  - rewrite (sub_unfold m Hm). destruct (m s) as [[r rest]|] eqn:E.
    + pose proof (bracketed_progress m Hm _ _ _ E) as P.
      destruct (Hdel _ _ _ E) as (u & v & -> & _).
      apply subseq_skip_app, subseq_keep_app, subseq_skip_app, IH. lia.
    + destruct s as [|c s]; [constructor|]. apply subseq_keep, IH. simpl in L. lia.
Qed.

Lemma sub_subseq (s : text) : subseq (Regex.sub m s) s.
Proof. apply (sub_subseq_fuel (length s)). lia. Qed.

Lemma sub_same_or_shorter_fuel : forall n s, length s <= n ->
  Regex.sub m s = s \/ length (Regex.sub m s) < length s.
Proof.
  induction n as [|n IH]; intros s L.
  - destruct s; [|simpl in L; lia]. left. apply (sub_id m Hm).
    intros a b E. symmetry in E. apply app_eq_nil in E. destruct E as [_ ->].
    destruct (m []) as [[r rest]|] eqn:E; [|reflexivity].
    apply (bracketed_progress m Hm) in E. simpl in E. lia.
  - rewrite (sub_unfold m Hm). destruct (m s) as [[r rest]|] eqn:E.
    + right. destruct (Hdel _ _ _ E) as (u & v & -> & Hu).
      pose proof (subseq_length _ _ (sub_subseq rest)).
      rewrite !length_app. destruct u; [congruence|simpl; lia].
    + destruct s as [|c s]; [now left|]. simpl in L.
      destruct (IH s) as [->|H]; [lia|now left|right; simpl; lia].
Qed.

End Deleting.

Lemma general_deletes (s r rest : text) :
  general_conflict_pattern s = Some (r, rest) ->
  exists u v, s = u ++ r ++ v ++ rest /\ u <> [].
Proof.
  rewrite general_conflict_pattern_scan. intros H.
  apply general_scan_shape in H. destruct H as (o & ->).
  exists (start_nl ++ o ++ sep_line), end_mark. split.
  - now rewrite <- !app_assoc.
  - discriminate.
Qed.

Lemma vi_deletes (s r rest : text) :
  vi_conflict_pattern s = Some (r, rest) ->
  exists u v, s = u ++ r ++ v ++ rest /\ u <> [].
Proof.
  intros H. destruct (br_end _ bracketed_vi _ _ _ H) as (u & ->).
  assert (r = []) as ->.
  { rewrite vi_conflict_pattern_scan in H. unfold vi_scan in H.
    destruct (Regex.strip_prefix start_nl _); [|discriminate].
    destruct (Regex.strip_prefix vi_tail _); [|discriminate]. now inversion H. }
  exists (u ++ end_mark), []. split.
  - now rewrite <- !app_assoc.
  - destruct u; discriminate.
Qed.

(** X6: each pass, and the two passes in sequence, only delete
    characters: the output is the input with some characters left out, in
    the same order; nothing is inserted, altered or moved. *)
Theorem passes_only_delete (content : text) :
  subseq (resolveSpecialCase content) content
  /\ subseq (resolveGeneric content) content
  /\ subseq (transform content) content.
Proof.
  split; [|split].
  - apply (sub_subseq _ bracketed_vi vi_deletes).
  - apply (sub_subseq _ bracketed_general general_deletes).
  - apply subseq_trans with (resolveSpecialCase content).
    + apply (sub_subseq _ bracketed_general general_deletes).
    + apply (sub_subseq _ bracketed_vi vi_deletes).
Qed.

(** X7: the two passes leave the content as it is or make it strictly
    shorter; the same holds of the generic pass alone. *)
Theorem passes_keep_or_shorten (content : text) :
  (transform content = content \/ length (transform content) < length content)
  /\ (resolveGeneric content = content
      \/ length (resolveGeneric content) < length content).
Proof.
  assert (G : forall c, resolveGeneric c = c \/ length (resolveGeneric c) < length c).
  { intros c. apply (sub_same_or_shorter_fuel _ bracketed_general general_deletes (length c)).
    lia. }
  split; [|apply G].
  unfold transform.
  destruct (sub_same_or_shorter_fuel _ bracketed_vi vi_deletes (length content) content)
    as [E|L]; [lia| |].
  - fold (resolveSpecialCase content) in E. rewrite E. apply G.
  - fold (resolveSpecialCase content) in L. right.
    destruct (G (resolveSpecialCase content)) as [->|L']; lia.
Qed.

(** X8: a content without the text [<<<<<<< HEAD] is a fixed point of both
    passes, so the early return of [resolve_generic_conflicts] skips a
    substitution that would have changed nothing. *)
Theorem no_start_marker_fixed_point (content : text) :
  occurs START content = false ->
  resolveSpecialCase content = content
  /\ resolveGeneric content = content
  /\ transform content = content.
Proof.
  intros H. destruct (no_start_no_change _ H) as [E1 E2].
  split; [assumption|]. split; [assumption|].
  unfold transform. now rewrite E1.
Qed.

Lemma no_start_marker_fixed_point_witness :
  resolveSpecialCase (line "hello") = line "hello"
  /\ resolveGeneric (line "hello") = line "hello"
  /\ transform (line "hello") = line "hello".
Proof. apply (no_start_marker_fixed_point (line "hello")). reflexivity. Defined.

(** * One file *)

Lemma update_other (f : path -> option node) (p q : path) (n : node) :
  q <> p -> update f p n q = f q.
Proof.
  intros H. unfold update. destruct (String.eqb q p) eqn:E; [|reflexivity].
  apply String.eqb_eq in E. contradiction.
Qed.



Ltac crunch_file w p :=
  unfold resolve_conflicts, resolve_generic_conflicts, try_except, bind,
    read_file, write_file, print, ret;
  destruct (fs w p) as [[|[] [] data]|] eqn:F; cbn; rewrite ?F; cbn.

Ltac crunch_generic w p :=
  unfold resolve_generic_conflicts, try_except, bind, read_file, write_file,
    print, ret;
  destruct (fs w p) as [[|[] wr data]|] eqn:F;
  try (destruct (occurs START data); cbn [negb]);
  cbn; rewrite ?F; try destruct wr; cbn.



(** X10: [resolve_generic_conflicts] never raises, whatever the path, the
    preference and the state of the files: it returns normally, prints
    exactly one line, about its path, and changes no file at another path;
    for a path that does not exist the line is the error
    [No such file or directory] and nothing else happens. *)
Theorem resolve_generic_conflicts_never_raises (p : path) (pref : string) (w : world) :
  fst (resolve_generic_conflicts p pref w) = inr tt
  /\ (exists o, stdout (snd (resolve_generic_conflicts p pref w)) = stdout w ++ [o]
                /\ outcome_path o = p)
  /\ (forall q, q <> p -> fs (snd (resolve_generic_conflicts p pref w)) q = fs w q)
  /\ (fs w p = None ->
      snd (resolve_generic_conflicts p pref w)
      = printed w (Error p (str (FileNotFoundError p)))).
Proof.
  split; [|split; [|split]].
  - crunch_generic w p; reflexivity.
  - crunch_generic w p; eexists; split; reflexivity.
  - intros q Hq. crunch_generic w p; try reflexivity. now apply update_other.
  - intros N. unfold resolve_generic_conflicts, try_except, bind, read_file.
    rewrite N. reflexivity.
Qed.

Lemma resolve_generic_conflicts_never_raises_witness :
  snd (resolve_generic_conflicts "missing.ts" "test" w_sample)
  = printed w_sample (Error "missing.ts" (str (FileNotFoundError "missing.ts"))).
Proof.
  apply (proj2 (proj2 (proj2
           (resolve_generic_conflicts_never_raises "missing.ts" "test" w_sample)))).
  reflexivity.
Defined.




(** * The loops and the files *)

Section LoopFiles.

Context {X : Type}.
Variable body : X -> M unit.
Variable key : X -> path.
(** What a turn makes of the file at its own path. *)
Variable after : X -> option node -> option node.
Hypothesis body_ok : forall x w, turn_ok (key x) w (body x w).
Hypothesis body_frame :
  forall x w q, q <> key x -> fs (snd (body x w)) q = fs w q.
Hypothesis body_at :
  forall x w, fs (snd (body x w)) (key x) = after x (fs w (key x)).

Lemma for_each_frame (l : list X) : forall w q,
  ~ In q (map key l) -> fs (snd (for_each body l w)) q = fs w q.
Proof.
  induction l as [|x l IH]; intros w q H; [reflexivity|].
  cbn [for_each]. unfold bind.
  destruct (body_ok x w) as (R & _).
  pose proof (body_frame x w q) as Fr.
  destruct (body x w) as [[e|[]] w1]; simpl in R, Fr; [discriminate|].
  rewrite IH.
  - apply Fr. intros ->. apply H. now left.
  - intros Hin. apply H. now right.
Qed.


End LoopFiles.

Lemma conflict_files_body_frame (p : path) (w : world) (q : path) :
  q <> p -> fs (snd (conflict_files_body p w)) q = fs w q.
Proof.
  intros Hq. unfold conflict_files_body, bind, path_exists.
  destruct (exists_in w p); [|reflexivity].
  crunch_file w p; try reflexivity. now apply update_other.
Qed.

Lemma additional_files_body_frame (x : path * string) (w : world) (q : path) :
  q <> fst x -> fs (snd (additional_files_body x w)) q = fs w q.
Proof.
  destruct x as [p pref]. simpl. intros Hq.
  unfold additional_files_body, bind, path_exists.
  destruct (exists_in w p); [|reflexivity].
  crunch_generic w p; try reflexivity. now apply update_other.
Qed.




Lemma additional_files_body_ok' (x : path * string) (w : world) :
  turn_ok (fst x) w (additional_files_body x w).
Proof. destruct x. apply additional_files_body_ok. Qed.

(** X12: neither loop changes, creates or removes a file at a path that
    is not in its list. *)
Theorem loops_leave_unlisted_files :
  (forall conflict_files w q,
      ~ In q conflict_files ->
      fs (snd (process_conflict_files conflict_files w)) q = fs w q)
  /\ (forall additional_files w q,
        ~ In q (map fst additional_files) ->
        fs (snd (process_additional_files additional_files w)) q = fs w q).
Proof.
  split.
  - intros l w q H.
    apply (for_each_frame conflict_files_body (fun p => p)
             conflict_files_body_ok conflict_files_body_frame).
    now rewrite map_id.
  - intros l w q H.
    apply (for_each_frame additional_files_body fst
             additional_files_body_ok' additional_files_body_frame).
    exact H.
Qed.

Lemma loops_leave_unlisted_files_witness :
  fs (snd (process_conflict_files [baseline_ts; lifecycle_ts] w_sample)) progress_md
  = fs w_sample progress_md.
Proof.
  apply (proj1 loops_leave_unlisted_files [baseline_ts; lifecycle_ts] w_sample progress_md).
  simpl. intros [H|[H|[]]]; discriminate.
Defined.








